(** * Arabic transliteration engine: strings, rule table, full-text
      transliterator and real-time segmenter.

    Shallow embedding of the class [ArabicTransliterator] of
    [transliteration-rules.js].  The repository carries two copies of that
    file whose rule tables differ in a few rows:
    - [src/background/transliteration-rules.js] (module [Background]);
    - the copy at the end of [src/unnamed/part_008] (module [Part008]).
    The methods are textually the same in both copies and are embedded once,
    over an engine record that holds the table.

    JavaScript strings are sequences of UTF-16 code units; every Arabic
    letter of the tables lies in the Basic Multilingual Plane, so it is one
    code unit and counts for one in [length].  Cursor positions are
    JavaScript numbers holding integers.  [transliterateRealTime] embeds
    them as [Z] with exact arithmetic, which is what the source computes on
    the safe integers; the two loops of the method are embedded a second
    time with the rounding of binary64 numbers ([leftLoop], [rightLoop],
    [realTimeWithin]), where a loop may fail to end, and the two embeddings
    are proved to agree on the safe integers.

    Around the engine, the callers that use it are embedded as far as they
    are plain computations on their own state: the listeners and the
    start-up of [src/background/background.js] (module [Worker]), the
    write-back of a result into a text field by the content scripts (module
    [Content]) and [isGooglePage] of the second background script (module
    [Google]). *)

From Stdlib Require Import ZArith NArith Ascii String Lia.
From stdpp Require Import base list gmap strings.

(** ** Strings *)

Definition codeUnit : Type := N.
Abbreviation jsString := (list codeUnit).

(** An ASCII character as a code unit, and an ASCII literal as a string. *)
Definition u (a : ascii) : codeUnit := N_of_ascii a.
Definition js (s : string) : jsString := map N_of_ascii (list_ascii_of_string s).

(** [s[i]]: the code unit at an integer index, [None] for [undefined]. *)
Definition stringAt (s : jsString) (i : Z) : option codeUnit :=
  if (i <? 0)%Z then None else s !! Z.to_nat i.

(** [s.length] *)
Definition jsLength (s : jsString) : Z := Z.of_nat (length s).

(** [s.substring(start, end)]: both indices are clamped to [0, s.length],
    swapped when start exceeds end; an absent [end] is [s.length]. *)
Definition clampIndex (len i : Z) : Z := Z.min (Z.max i 0) len.

Definition substring (s : jsString) (start : Z) (end_ : option Z) : jsString :=
  let len := jsLength s in
  let intEnd := match end_ with Some e => e | None => len end in
  let finalStart := clampIndex len start in
  let finalEnd := clampIndex len intEnd in
  let from := Z.min finalStart finalEnd in
  let to := Z.max finalStart finalEnd in
  take (Z.to_nat (to - from)) (drop (Z.to_nat from) s).

(** [array.includes(x)] for an array of one-character strings and an [x]
    that is a one-character string or [undefined]. *)
Definition includes (array : list codeUnit) (x : option codeUnit) : bool :=
  match x with
  | Some c => existsb (N.eqb c) array
  | None => false
  end.

(** ** Regular expressions of the rule table

    Every pattern of the table is a literal of one or two characters with
    the flags [g] or [gi].  Without the [u] flag a character [ch] matches a
    pattern character [p] under [i] when their canonical forms agree, the
    canonical form being the upper-case mapping, except that a non-ASCII
    character is never mapped to an ASCII one.  All pattern characters are
    ASCII, so only the ASCII part of the mapping decides a match; the mapping
    of code units from 128 on is left as the identity. *)

Definition toUpperCase (c : codeUnit) : codeUnit :=
  if ((97 <=? c) && (c <=? 122))%N then (c - 32)%N else c.

Definition Canonicalize (ignoreCase : bool) (c : codeUnit) : codeUnit :=
  if ignoreCase then toUpperCase c else c.

Definition charMatches (ignoreCase : bool) (p c : codeUnit) : bool :=
  (Canonicalize ignoreCase p =? Canonicalize ignoreCase c)%N.

Inductive RegExp : Type :=
  | Lit1 (c : codeUnit) (ignoreCase : bool)
  | Lit2 (c1 c2 : codeUnit) (ignoreCase : bool).

(** [s.replace(/c/g, rep)]: every matching character is replaced. *)
Fixpoint replace1 (ignoreCase : bool) (c : codeUnit) (rep s : jsString) : jsString :=
  match s with
  | [] => []
  | x :: s' =>
      if charMatches ignoreCase c x
      then rep ++ replace1 ignoreCase c rep s'
      else x :: replace1 ignoreCase c rep s'
  end.

(** [s.replace(/c1c2/g, rep)]: the string is scanned from the left; a match
    consumes two characters and the scan resumes after it. *)
Fixpoint replace2 (ignoreCase : bool) (c1 c2 : codeUnit) (rep s : jsString) : jsString :=
  match s with
  | [] => []
  | x :: s' =>
      match s' with
      | [] => [x]
      | y :: s'' =>
          if charMatches ignoreCase c1 x && charMatches ignoreCase c2 y
          then rep ++ replace2 ignoreCase c1 c2 rep s''
          else x :: replace2 ignoreCase c1 c2 rep s'
      end
  end.

(** [s.replace(pattern, rep)] for a global pattern; no replacement string of
    the tables contains a dollar sign, so it is inserted as it is. *)
Definition replace (s : jsString) (pattern : RegExp) (rep : jsString) : jsString :=
  match pattern with
  | Lit1 c ic => replace1 ic c rep s
  | Lit2 c1 c2 ic => replace2 ic c1 c2 rep s
  end.

(** ** The engine *)

Record Rule : Type := mkRule { pattern : RegExp; arabic : jsString }.

Record ArabicTransliterator : Type := mkEngine {
  rules : list Rule;
  isEnabled : bool;
  keyboardLayout : jsString;
  separators : list codeUnit
}.

Record RealTimeResult : Type := mkResult {
  text : jsString;
  newCursorPosition : Z
}.

(** [transliterate(input)] *)
Definition transliterate (this : ArabicTransliterator) (input : jsString) : jsString :=
  match input with
  | [] => []
  | _ =>
      fold_left (fun result rule => replace result (pattern rule) (arabic rule))
                (rules this) input
  end.

(** The first loop of [transliterateRealTime]:
    [for (let i = cursorPosition - 1; i >= 0; i--)], with [n] the number of
    indices still to visit, that is, of the [i] from the current one down
    to 0.  The index is stepped exactly, as the source does up to 2^53;
    [leftLoop] below is the loop with the rounding of numbers. *)
Fixpoint scanLeft (seps : list codeUnit) (currentText : jsString) (i : Z) (n : nat) : Z :=
  match n with
  | O => (-1)%Z
  | S n' =>
      if includes seps (stringAt currentText i)
      then i
      else scanLeft seps currentText (i - 1)%Z n'
  end.

(** The second loop: [for (let i = cursorPosition; i < currentText.length; i++)],
    with [n] the number of indices still to visit, from the current one up to
    the last of the text.  The index is stepped exactly; [rightLoop] below
    is the loop with the rounding of numbers. *)
Fixpoint scanRight (seps : list codeUnit) (currentText : jsString) (i : Z) (n : nat) : Z :=
  match n with
  | O => jsLength currentText
  | S n' =>
      if includes seps (stringAt currentText i)
      then i
      else scanRight seps currentText (i + 1)%Z n'
  end.

(** [transliterateRealTime(currentText, cursorPosition)], for an integer
    [cursorPosition] on which the steps of the two loops are exact: a safe
    integer (see [realTimeWithin] and [realTimeWithin_exact]). *)
Definition transliterateRealTime (this : ArabicTransliterator)
    (currentText : jsString) (cursorPosition : Z) : RealTimeResult :=
  if negb (isEnabled this) then
    {| text := currentText; newCursorPosition := cursorPosition |}
  else
    let leftBoundary :=
      scanLeft (separators this) currentText (cursorPosition - 1)%Z
               (Z.to_nat cursorPosition) in
    let rightBoundary :=
      scanRight (separators this) currentText cursorPosition
                (Z.to_nat (jsLength currentText - cursorPosition)) in
    let committedPrefix := substring currentText 0 (Some (leftBoundary + 1)%Z) in
    let activeSegment :=
      substring currentText (leftBoundary + 1)%Z (Some rightBoundary) in
    let suffix := substring currentText rightBoundary None in
    let transliteratedCommittedPrefix := transliterate this committedPrefix in
    let transliteratedActiveSegment := transliterate this activeSegment in
    let transliteratedSuffix := transliterate this suffix in
    let newText :=
      transliteratedCommittedPrefix ++ transliteratedActiveSegment
        ++ transliteratedSuffix in
    let previewUpToCursor :=
      transliterate this (substring currentText 0 (Some cursorPosition)) in
    let newCursorPosition := jsLength previewUpToCursor in
    {| text := newText; newCursorPosition := newCursorPosition |}.

(** ** Cursor positions as numbers

    A cursor position is a JavaScript number, an IEEE 754 binary64 value
    that holds an integer.  The loops of [transliterateRealTime] compute
    [cursorPosition - 1], [i--] and [i++] on it, each result rounded to the
    nearest binary64 value, a tie going to the even significand.  Up to 2^53
    in magnitude every integer is a binary64 value and the three are exact;
    above, only the multiples of a power of two are, and a step of one can
    round back to where it started. *)
Module Binary64.
(** 2^53: up to it, in magnitude, every integer is a number. *)
Definition maxExact : Z := 9007199254740992.

(** [Number.MAX_SAFE_INTEGER], 2^53 - 1 *)
Definition MAX_SAFE_INTEGER : Z := 9007199254740991.

(** [Number.isSafeInteger(z)] for an integer [z] *)
Definition isSafeInteger (z : Z) : Prop :=
  (- MAX_SAFE_INTEGER <= z <= MAX_SAFE_INTEGER)%Z.

(** The binary64 value nearest to an integer (of magnitude below 2^1024,
    where the numbers end): the integer itself up to 2^53; above, the
    nearest multiple of the unit in the last place of a significand of 53
    bits, a tie going to the even significand. *)
Definition roundInteger (z : Z) : Z :=
  let magnitude := Z.abs z in
  if (magnitude <=? maxExact)%Z then z
  else
    let ulp := (2 ^ (Z.log2 magnitude - 52))%Z in
    let significand := (magnitude / ulp)%Z in
    let rest := (magnitude mod ulp)%Z in
    let half := (ulp / 2)%Z in
    let rounded :=
      if (rest <? half)%Z then significand
      else if (half <? rest)%Z then (significand + 1)%Z
      else if Z.even significand then significand
      else (significand + 1)%Z in
    (Z.sgn z * (rounded * ulp))%Z.
End Binary64.

(** The first loop of [transliterateRealTime] on numbers:
    [for (let i = ...; i >= 0; i--)] from the value [i], with the [break] on
    a separator.  [fuel] bounds the number of times the test [i >= 0] is
    made; the result is [None] when the loop has not ended by then. *)
Fixpoint leftLoop (seps : list codeUnit) (currentText : jsString) (i : Z)
    (fuel : nat) : option Z :=
  match fuel with
  | O => None
  | S fuel' =>
      if (i >=? 0)%Z then
        if includes seps (stringAt currentText i)
        then Some i
        else leftLoop seps currentText (Binary64.roundInteger (i - 1)) fuel'
      else Some (-1)%Z
  end.

(** The second loop on numbers:
    [for (let i = ...; i < currentText.length; i++)] from the value [i]. *)
Fixpoint rightLoop (seps : list codeUnit) (currentText : jsString) (i : Z)
    (fuel : nat) : option Z :=
  match fuel with
  | O => None
  | S fuel' =>
      if (i <? jsLength currentText)%Z then
        if includes seps (stringAt currentText i)
        then Some i
        else rightLoop seps currentText (Binary64.roundInteger (i + 1)) fuel'
      else Some (jsLength currentText)
  end.

(** [transliterateRealTime(currentText, cursorPosition)] on numbers, each
    loop given [fuel] tests: [Some] of what the call returns, [None] when a
    loop has not ended within them. *)
Definition realTimeWithin (fuel : nat) (this : ArabicTransliterator)
    (currentText : jsString) (cursorPosition : Z) : option RealTimeResult :=
  if negb (isEnabled this) then
    Some {| text := currentText; newCursorPosition := cursorPosition |}
  else
    match leftLoop (separators this) currentText
            (Binary64.roundInteger (cursorPosition - 1)) fuel with
    | None => None
    | Some leftBoundary =>
        match rightLoop (separators this) currentText cursorPosition fuel with
        | None => None
        | Some rightBoundary =>
            let afterLeft := Binary64.roundInteger (leftBoundary + 1) in
            let committedPrefix := substring currentText 0 (Some afterLeft) in
            let activeSegment :=
              substring currentText afterLeft (Some rightBoundary) in
            let suffix := substring currentText rightBoundary None in
            let transliteratedCommittedPrefix := transliterate this committedPrefix in
            let transliteratedActiveSegment := transliterate this activeSegment in
            let transliteratedSuffix := transliterate this suffix in
            let newText :=
              transliteratedCommittedPrefix ++ transliteratedActiveSegment
                ++ transliteratedSuffix in
            let previewUpToCursor :=
              transliterate this (substring currentText 0 (Some cursorPosition)) in
            let newCursorPosition := jsLength previewUpToCursor in
            Some {| text := newText; newCursorPosition := newCursorPosition |}
        end
    end.

(** [getPreview(input)] *)
Definition getPreview (this : ArabicTransliterator) (input : jsString) : jsString :=
  transliterate this input.

(** [setEnabled(enabled)] *)
Definition setEnabled (this : ArabicTransliterator) (enabled : bool)
    : ArabicTransliterator :=
  {| rules := rules this;
     isEnabled := enabled;
     keyboardLayout := keyboardLayout this;
     separators := separators this |}.

(** [setKeyboardLayout(layout)] *)
Definition setKeyboardLayout (this : ArabicTransliterator) (layout : jsString)
    : ArabicTransliterator :=
  {| rules := rules this;
     isEnabled := isEnabled this;
     keyboardLayout := layout;
     separators := separators this |}.

(** [isTransliteratorEnabled()] *)
Definition isTransliteratorEnabled (this : ArabicTransliterator) : bool :=
  isEnabled this.

(** ** The rule tables and the separators *)

(** The Arabic letters of the tables, by code point, named as the comments
    of the tables name them. *)
Module Arabic.
Definition Hamza : codeUnit := 0x621%N.
Definition WawHamza : codeUnit := 0x624%N.
Definition YaHamza : codeUnit := 0x626%N.
Definition Alif : codeUnit := 0x627%N.
Definition Ba : codeUnit := 0x628%N.
Definition TaaMarbuta : codeUnit := 0x629%N.
Definition Ta : codeUnit := 0x62a%N.
Definition Thaa : codeUnit := 0x62b%N.
Definition Jeem : codeUnit := 0x62c%N.
Definition Hha : codeUnit := 0x62d%N.
Definition Kha : codeUnit := 0x62e%N.
Definition Dal : codeUnit := 0x62f%N.
Definition Dhaal : codeUnit := 0x630%N.
Definition Ra : codeUnit := 0x631%N.
Definition Zay : codeUnit := 0x632%N.
Definition Seen : codeUnit := 0x633%N.
Definition Sheen : codeUnit := 0x634%N.
Definition Sad : codeUnit := 0x635%N.
Definition Dad : codeUnit := 0x636%N.
Definition TaEmphatic : codeUnit := 0x637%N.
Definition Zha : codeUnit := 0x638%N.
Definition Ain : codeUnit := 0x639%N.
Definition Ghain : codeUnit := 0x63a%N.
Definition Fa : codeUnit := 0x641%N.
Definition Qaf : codeUnit := 0x642%N.
Definition Kaf : codeUnit := 0x643%N.
Definition Lam : codeUnit := 0x644%N.
Definition Meem : codeUnit := 0x645%N.
Definition Noon : codeUnit := 0x646%N.
Definition Ha : codeUnit := 0x647%N.
Definition Waw : codeUnit := 0x648%N.
Definition Ya : codeUnit := 0x64a%N.
End Arabic.

(** A row [{ pattern: /c/g, arabic: a }] or [{ pattern: /c/gi, arabic: a }]
    and a row [{ pattern: /c1c2/gi, arabic: a }]. *)
Definition row1 (c : ascii) (ignoreCase : bool) (a : codeUnit) : Rule :=
  {| pattern := Lit1 (u c) ignoreCase; arabic := [a] |}.
Definition row2 (c1 c2 : ascii) (ignoreCase : bool) (a : codeUnit) : Rule :=
  {| pattern := Lit2 (u c1) (u c2) ignoreCase; arabic := [a] |}.

(** [this.separators], the same array in both copies. *)
Definition theSeparators : list codeUnit :=
  [32; 46; 44; 33; 63; 59; 58; 40; 41; 91; 93; 123; 125; 45; 95; 43; 61; 42;
   47; 92; 124; 38; 37; 36; 35; 64; 94; 126; 96; 60; 62; 34; 39]%N.

(** [src/background/transliteration-rules.js] *)
Module Background.
Import Arabic.

Definition theRules : list Rule :=
  [ row2 "s" "h" true Sheen; row2 "t" "h" true Thaa;
    row2 "d" "h" true Dhaal; row2 "c" "h" true Sheen;
    row1 "3" false Ain; row1 "7" false Hha; row1 "5" false Kha;
    row1 "2" false Hamza; row1 "9" false Qaf; row1 "6" false TaEmphatic;
    row1 "8" false Ghain;
    row1 "S" false Sad; row1 "D" false Dad; row1 "Z" false Zha;
    row1 "a" true Alif; row1 "b" true Ba; row1 "t" true Ta;
    row1 "j" true Jeem; row1 "d" true Dal; row1 "r" true Ra;
    row1 "z" true Zay; row1 "s" true Seen; row1 "f" true Fa;
    row1 "k" true Kaf; row1 "l" true Lam; row1 "m" true Meem;
    row1 "n" true Noon; row1 "h" true Ha; row1 "w" true Waw;
    row1 "y" true Ya; row1 "p" true Ba;
    row1 "e" true Ya; row1 "i" true Ya; row1 "o" true Waw;
    row1 "u" true Waw ].

(** [new ArabicTransliterator()] *)
Definition constructor : ArabicTransliterator :=
  {| rules := theRules;
     isEnabled := true;
     keyboardLayout := js "AZERTY";
     separators := theSeparators |}.
End Background.

(** The copy in [src/unnamed/part_008]: three more upper-case rows ([T], [O],
    [Y]) and a case-sensitive lower-case [t] for Taa marbuta. *)
Module Part008.
Import Arabic.

Definition theRules : list Rule :=
  [ row2 "s" "h" true Sheen; row2 "t" "h" true Thaa;
    row2 "d" "h" true Dhaal; row2 "c" "h" true Sheen;
    row1 "3" false Ain; row1 "7" false Hha; row1 "5" false Kha;
    row1 "2" false Hamza; row1 "9" false Qaf; row1 "6" false TaEmphatic;
    row1 "8" false Ghain;
    row1 "S" false Sad; row1 "D" false Dad; row1 "Z" false Zha;
    row1 "T" false Ta; row1 "O" false WawHamza; row1 "Y" false YaHamza;
    row1 "a" true Alif; row1 "b" true Ba; row1 "t" false TaaMarbuta;
    row1 "j" true Jeem; row1 "d" true Dal; row1 "r" true Ra;
    row1 "z" true Zay; row1 "s" true Seen; row1 "f" true Fa;
    row1 "k" true Kaf; row1 "l" true Lam; row1 "m" true Meem;
    row1 "n" true Noon; row1 "h" true Ha; row1 "w" true Waw;
    row1 "y" true Ya; row1 "p" true Ba;
    row1 "e" true Ya; row1 "i" true Ya; row1 "o" true Waw;
    row1 "u" true Waw ].

(** [new ArabicTransliterator()] *)
Definition constructor : ArabicTransliterator :=
  {| rules := theRules;
     isEnabled := true;
     keyboardLayout := js "AZERTY";
     separators := theSeparators |}.
End Part008.

(** The engine instances a host can hold: a freshly constructed one, changed
    by any sequence of its two setters. *)
Inductive reachable (e0 : ArabicTransliterator) : ArabicTransliterator -> Prop :=
  | reach_new : reachable e0 e0
  | reach_setEnabled e b : reachable e0 e -> reachable e0 (setEnabled e b)
  | reach_setKeyboardLayout e l :
      reachable e0 e -> reachable e0 (setKeyboardLayout e l).

(** An instance of either copy of the class. *)
Definition shipped (e : ArabicTransliterator) : Prop :=
  reachable Background.constructor e \/ reachable Part008.constructor e.

(** ** Which characters the table reads *)

(** [c] matches a character of the pattern. *)
Definition inPattern (re : RegExp) (c : codeUnit) : bool :=
  match re with
  | Lit1 p ic => charMatches ic p c
  | Lit2 p1 p2 ic => charMatches ic p1 c || charMatches ic p2 c
  end.

(** [c] matches the pattern of a one-character row. *)
Definition isSingle (re : RegExp) (c : codeUnit) : bool :=
  match re with
  | Lit1 p ic => charMatches ic p c
  | Lit2 _ _ _ => false
  end.

(** [c] matches the first, the second character of a two-character row. *)
Definition isFirst (re : RegExp) (c : codeUnit) : bool :=
  match re with
  | Lit1 _ _ => false
  | Lit2 p1 _ ic => charMatches ic p1 c
  end.

Definition isSecond (re : RegExp) (c : codeUnit) : bool :=
  match re with
  | Lit1 _ _ => false
  | Lit2 _ p2 ic => charMatches ic p2 c
  end.

Definition anyRule (f : RegExp -> codeUnit -> bool) (R : list Rule)
    (c : codeUnit) : bool :=
  existsb (fun r => f (pattern r) c) R.

(** [c] is covered by the table: it matches a character of some pattern. *)
Definition covered (R : list Rule) (c : codeUnit) : bool := anyRule inPattern R c.

(** The cursor at [cursorPosition] falls between the two letters of a
    digraph of the table. *)
Definition splitsDigraph (R : list Rule) (currentText : jsString)
    (cursorPosition : Z) : bool :=
  match stringAt currentText (cursorPosition - 1)%Z,
        stringAt currentText cursorPosition with
  | Some x, Some y => anyRule isFirst R x && anyRule isSecond R y
  | _, _ => false
  end.

(** ** The rule loop and the checks on a table *)

(** The loop of [transliterate]: the rows applied in order, each to the
    result of the one before. *)
Definition applyRules (R : list Rule) (input : jsString) : jsString :=
  fold_left (fun result rule => replace result (pattern rule) (arabic rule)) R input.

(** The cut between [a] and [b] is not straddled by a digraph of the
    table [T]. *)
Definition noSplit (T : list Rule) (a b : jsString) : Prop :=
  forall x y, last a = Some x -> head b = Some y ->
    anyRule isFirst T x && anyRule isSecond T y = false.

(** The characters that can match the pattern character [p]: [p] itself and,
    under [i], the two cases of its letter. *)
Definition variants (p : codeUnit) : list codeUnit :=
  [p; toUpperCase p; (toUpperCase p + 32)%N].

Definition patternChars (R : list Rule) : list codeUnit :=
  flat_map (fun r => match pattern r with
                     | Lit1 p _ => variants p
                     | Lit2 p1 p2 _ => variants p1 ++ variants p2
                     end) R.

(** No letter of a replacement is read by any row. *)
Definition inertTable (R : list Rule) : bool :=
  forallb (fun r => forallb (fun c => negb (covered R c)) (arabic r)) R.

(** Every replacement is one letter. *)
Definition oneLetter (R : list Rule) : bool :=
  forallb (fun r => (length (arabic r) =? 1)%nat) R.

(** No separator is read by any row. *)
Definition separatorsUncovered (R : list Rule) (seps : list codeUnit) : bool :=
  forallb (fun c => negb (covered R c)) seps.

(** No character opens one digraph and closes another. *)
Definition digraphsApart (R : list Rule) : bool :=
  forallb (fun c => negb (anyRule isFirst R c && anyRule isSecond R c))
          (patternChars R).

(** Every character that closes a digraph has a one-character row. *)
Definition secondsSingle (R : list Rule) : bool :=
  forallb (fun c => implb (anyRule isSecond R c) (anyRule isSingle R c))
          (patternChars R).

(** The checks a table has to pass, together. *)
Definition tableChecks (R : list Rule) (seps : list codeUnit) : bool :=
  inertTable R && oneLetter R && digraphsApart R && secondsSingle R
    && separatorsUncovered R seps.

(** The characters the shipped tables read: the digits 2, 3, 5, 6, 7, 8, 9
    and every letter in either case but g, q, v and x. *)
Definition coveredChars : jsString :=
  js "2356789abcdefhijklmnoprstuwyzABCDEFHIJKLMNOPRSTUWYZ".

(** ** The cursor round trip *)

(** The cursor round trip as the specification words it: the new cursor
    position lies in the returned text, is the length of the transliterated
    prefix, and the returned text starts with that transliterated prefix. *)
Definition cursorRoundTrip (e : ArabicTransliterator) (currentText : jsString)
    (cursorPosition : Z) : Prop :=
  let r := transliterateRealTime e currentText cursorPosition in
  let preview := transliterate e (substring currentText 0 (Some cursorPosition)) in
  (0 <= newCursorPosition r <= jsLength (text r))%Z /\
  newCursorPosition r = jsLength preview /\
  take (Z.to_nat (newCursorPosition r)) (text r) = preview.

(** ** Counting digraphs *)

(** The number of places of [s] where a digraph of the table [R] starts: a
    character that opens a digraph followed by one that closes one. *)
Fixpoint digraphCount (R : list Rule) (s : jsString) : nat :=
  match s with
  | [] => 0
  | x :: s' =>
      match s' with
      | y :: _ =>
          if anyRule isFirst R x && anyRule isSecond R y then 1 else 0
      | [] => 0
      end + digraphCount R s'
  end.

(** The characters that have a one-character row in the shipped tables:
    the covered ones but [c], which only opens the digraph [ch]. *)
Definition singleChars : jsString :=
  js "2356789abdefhijklmnoprstuwyzABDEFHIJKLMNOPRSTUWYZ".

(** The cut between [a] and [b] separates the two letters of a digraph:
    [a] ends with one of [s], [t], [d], [c] in either case and [b] starts
    with [h] in either case. *)
Definition cutsDigraph (a b : jsString) : Prop :=
  exists x y, last a = Some x /\ head b = Some y /\
              In x (js "sStTdDcC") /\ In y (js "hH").

(** ** More string operations *)

(** [s.startsWith(p)] *)
Fixpoint startsWith (s p : jsString) {struct p} : bool :=
  match p with
  | [] => true
  | c :: p' =>
      match s with
      | [] => false
      | d :: s' => (c =? d)%N && startsWith s' p'
      end
  end.

(** [s.includes(p)] *)
Fixpoint stringIncludes (s p : jsString) : bool :=
  startsWith s p ||
  match s with
  | [] => false
  | _ :: s' => stringIncludes s' p
  end.

(** [s.endsWith(p)] *)
Definition endsWith (s p : jsString) : bool :=
  (length p <=? length s)%nat && startsWith (drop (length s - length p) s) p.

(** [a === b] on strings *)
Definition sameString (a b : jsString) : bool :=
  (length a =? length b)%nat && startsWith a b.

(** ** The content script: writing a result back into a text field

    [updateStandardInputElement] of [content.js] ([src/unnamed/part_005]; the
    callback of [requestTransliteration] in [src/unnamed/part_004] is the
    same code inlined).  Of the element only the three properties the
    function touches are kept; the element is an input or textarea that
    supports the selection properties. *)
Module Content.
Record InputElement : Type := mkInput {
  value : jsString;
  selectionStart : Z;
  selectionEnd : Z
}.

(** [updateStandardInputElement(inputElement, transliteratedText, newCursorPosition)] *)
Definition updateStandardInputElement (inputElement : InputElement)
    (transliteratedText : jsString) (newCursorPosition : Z) : InputElement :=
  if negb (sameString (value inputElement) transliteratedText) then
    let finalCursorPosition :=
      Z.min newCursorPosition (jsLength transliteratedText) in
    {| value := transliteratedText;
       selectionStart := finalCursorPosition;
       selectionEnd := finalCursorPosition |}
  else inputElement.

(** One round for a field: its value and cursor go to the engine, as
    [processElement] and [requestTransliteration] send them, and the payload
    of the response is written back. *)
Definition round (e : ArabicTransliterator) (inputElement : InputElement)
    : InputElement :=
  let currentText := value inputElement in
  let cursorPosition := selectionStart inputElement in
  let payload := transliterateRealTime e currentText cursorPosition in
  updateStandardInputElement inputElement (text payload) (newCursorPosition payload).
End Content.

(** ** The background service worker

    [src/background/background.js].  The worker owns one engine, the badge
    of the extension's icon and the value persisted under one key of
    [chrome.storage.local].  The badge and the storage are kept by the
    browser and outlive the worker; the engine is built anew, enabled, each
    time the script starts.

    A listener changes the engine and the badge in one synchronous block,
    before its first [await], and is one step on the state below.
    [initializeTransliteratorState] is called as the script starts, issues
    its read of the storage and waits; it touches the engine and the badge
    only when the read has come back, and listeners may run before that.
    Its resumption is therefore a step of its own.  Whether a storage call
    succeeds, and what a read gives, is decided by the browser and is an
    input of the step. *)
Module Worker.
Definition STORAGE_KEY_ENABLED : string := "translit_enabled".

Record Badge : Type := mkBadge {
  badgeText : string;
  badgeBackgroundColor : string
}.

(** [updateBadge(isEnabled)] *)
Definition updateBadge (isEnabled : bool) : Badge :=
  {| badgeText := if isEnabled then "ON" else "OFF";
     badgeBackgroundColor := if isEnabled then "#4CAF50" else "#F44336" |}.

Record Tab : Type := mkTab { tabId : option Z; tabUrl : option string }.

(** The message [{ type: 'TRANSLITERATOR_STATE_UPDATE', isEnabled }] sent to
    a tab. *)
Record StateUpdate : Type := mkUpdate { toTab : Z; updateIsEnabled : bool }.

(** [if (tab.id) chrome.tabs.sendMessage(tab.id, ...)]: an absent id and the
    id 0 are falsy. *)
Definition sendIfId (tab : Tab) (isEnabled : bool) : list StateUpdate :=
  match tabId tab with
  | Some i => if (i =? 0)%Z then [] else [ {| toTab := i; updateIsEnabled := isEnabled |} ]
  | None => []
  end.

(** [tabs.forEach(tab => { if (tab.id) ... })] *)
Definition notifyTabs (tabs : list Tab) (isEnabled : bool) : list StateUpdate :=
  flat_map (fun tab => sendIfId tab isEnabled) tabs.

(** The payload of a message: its properties [currentText] and
    [cursorPosition], each [None] when absent or [undefined], and otherwise
    a string and an integer. *)
Record Payload : Type := mkPayload {
  currentText : option jsString;
  cursorPosition : option Z
}.

(** A message as the listener receives it: [null] or [undefined]
    ([NoMessage]), or a value with its properties [type] and [payload],
    each [None] when absent, [undefined] or, for the payload, [null]. *)
Inductive Message : Type :=
  | NoMessage
  | Msg (type : option string) (payload : option Payload).

(** The value of [transliterateRealTime] as the listener passes it on: the
    properties [text] and [newCursorPosition], [None] for [undefined]. *)
Record ResponsePayload : Type := mkResponsePayload {
  payloadText : option jsString;
  payloadCursor : option Z
}.

Inductive Response : Type :=
  | TRANSLITERATE_RESPONSE (payload : ResponsePayload)
  | TRANSLITERATOR_STATE_RESPONSE (isEnabled : bool)
  | TOGGLE_RESPONSE (newState : bool).

Record World : Type := mkWorld {
  transliterator : ArabicTransliterator;
  badge : option Badge;
  storage : gmap string bool
}.

(** What a listener leaves: the state, the response passed to
    [sendResponse] if any, and the messages sent to tabs. *)
Record Handled : Type := mkHandled {
  after : World;
  response : option Response;
  sent : list StateUpdate
}.

(** The worker as its script starts: a new engine; the badge and the
    storage are what the browser kept. *)
Definition start (keptBadge : option Badge) (keptStorage : gmap string bool) : World :=
  {| transliterator := Background.constructor;
     badge := keptBadge;
     storage := keptStorage |}.

(** [initializeTransliteratorState()] from the point where its
    [await chrome.storage.local.get(...)] comes back: [result] is what was
    read, [None] when the read is rejected.  Before that point the function
    changes nothing. *)
Definition initializeTransliteratorState (w : World)
    (result : option (gmap string bool)) (tabs : list Tab) : Handled :=
  match result with
  | Some result =>
      let isEnabled :=
        match result !! STORAGE_KEY_ENABLED with
        | Some v => v
        | None => true
        end in
      {| after := {| transliterator := setEnabled (transliterator w) isEnabled;
                     badge := Some (updateBadge isEnabled);
                     storage := storage w |};
         response := None;
         sent := notifyTabs tabs isEnabled |}
  | None =>
      {| after := {| transliterator := setEnabled (transliterator w) true;
                     badge := Some (updateBadge true);
                     storage := storage w |};
         response := None;
         sent := [] |}
  end.

(** The toggle shared by the message listener and the icon listener: flip
    the flag, set the badge, store the new flag ([writeOk] is false when
    [chrome.storage.local.set] rejects, which is caught and logged). *)
Definition toggle (w : World) (writeOk : bool) : bool * World :=
  let currentState := isTransliteratorEnabled (transliterator w) in
  let newState := negb currentState in
  (newState,
   {| transliterator := setEnabled (transliterator w) newState;
      badge := Some (updateBadge newState);
      storage := if writeOk then <[STORAGE_KEY_ENABLED := newState]> (storage w)
                 else storage w |}).

(** The call [transliterator.transliterateRealTime(currentText, cursorPosition)]
    of the listener, on the two properties of the payload; [None] when it
    throws.  A disabled engine returns the two as they came.  An enabled one
    reads [currentText[i]] or [currentText.length] and throws when
    [currentText] is [undefined]; with [cursorPosition] [undefined] the
    tests [NaN >= 0] and [undefined < currentText.length] are false, so no
    loop body runs and the boundaries stay at [-1] and the length, and
    [substring(0, undefined)] is the whole text.  A cursor position that is
    present is a safe integer, as [transliterateRealTime] has it. *)
Definition callTransliterateRealTime (this : ArabicTransliterator)
    (payload : Payload) : option ResponsePayload :=
  if negb (isEnabled this) then
    Some {| payloadText := currentText payload;
            payloadCursor := cursorPosition payload |}
  else
    match currentText payload with
    | None => None
    | Some currentText =>
        match cursorPosition payload with
        | Some cursorPosition =>
            let result := transliterateRealTime this currentText cursorPosition in
            Some {| payloadText := Some (text result);
                    payloadCursor := Some (newCursorPosition result) |}
        | None =>
            let leftBoundary := (-1)%Z in
            let rightBoundary := jsLength currentText in
            let committedPrefix :=
              substring currentText 0 (Some (leftBoundary + 1)%Z) in
            let activeSegment :=
              substring currentText (leftBoundary + 1)%Z (Some rightBoundary) in
            let suffix := substring currentText rightBoundary None in
            let newText :=
              transliterate this committedPrefix ++ transliterate this activeSegment
                ++ transliterate this suffix in
            let previewUpToCursor :=
              transliterate this (substring currentText 0 None) in
            Some {| payloadText := Some newText;
                    payloadCursor := Some (jsLength previewUpToCursor) |}
        end
    end.

(** The listener of [chrome.runtime.onMessage]; [None] when it throws:
    [message.type] throws on a message that is [null] or [undefined], the
    destructuring of [message.payload] on a payload that is, and the engine
    as [callTransliterateRealTime] has it. *)
Definition onMessage (w : World) (message : Message) (tabs : list Tab)
    (writeOk : bool) : option Handled :=
  match message with
  | NoMessage => None
  | Msg (Some type) payload =>
      if String.eqb type "TRANSLITERATE_REAL_TIME" then
        match payload with
        | Some payload =>
            match callTransliterateRealTime (transliterator w) payload with
            | Some result =>
                Some {| after := w;
                        response := Some (TRANSLITERATE_RESPONSE result);
                        sent := [] |}
            | None => None
            end
        | None => None
        end
      else if String.eqb type "GET_TRANSLITERATOR_STATE" then
        Some {| after := w;
                response := Some (TRANSLITERATOR_STATE_RESPONSE
                                    (isTransliteratorEnabled (transliterator w)));
                sent := [] |}
      else if String.eqb type "TOGGLE_TRANSLITERATOR" then
        let '(newState, w') := toggle w writeOk in
        Some {| after := w';
                response := Some (TOGGLE_RESPONSE newState);
                sent := notifyTabs tabs newState |}
      else Some {| after := w; response := None; sent := [] |}
  | Msg None _ => Some {| after := w; response := None; sent := [] |}
  end.

(** The listener of [chrome.action.onClicked]. *)
Definition onClicked (w : World) (tab : Tab) (writeOk : bool) : Handled :=
  let '(newState, w') := toggle w writeOk in
  {| after := w'; response := None; sent := sendIfId tab newState |}.

(** The listener of [chrome.tabs.onUpdated]: a tab that has finished
    loading a page outside [chrome://] is sent the flag.  It reads the state
    and changes nothing; without a tab id the call to send throws and
    nothing is sent. *)
Definition onUpdated (w : World) (status : option string) (tab : Tab)
    : list StateUpdate :=
  match status, tabUrl tab with
  | Some st, Some url =>
      if String.eqb st "complete" && negb (String.eqb url "")
         && negb (String.prefix "chrome://" url)
      then match tabId tab with
           | Some i =>
               [ {| toTab := i;
                    updateIsEnabled := isTransliteratorEnabled (transliterator w) |} ]
           | None => []
           end
      else []
  | _, _ => []
  end.

(** What happens in the life of one worker, from the start of its script
    on: [initializeTransliteratorState] resumes with the outcome of its
    read, or the browser calls a listener. *)
Inductive Event : Type :=
  | Resumed (result : option (gmap string bool)) (tabs : list Tab)
  | Received (message : Message) (tabs : list Tab) (writeOk : bool)
  | Clicked (tab : Tab) (writeOk : bool)
  | Updated (status : option string) (tab : Tab).

(** The state after an event; a listener that throws leaves the state as it
    was. *)
Definition step (w : World) (ev : Event) : World :=
  match ev with
  | Resumed result tabs => after (initializeTransliteratorState w result tabs)
  | Received message tabs writeOk =>
      match onMessage w message tabs writeOk with
      | Some h => after h
      | None => w
      end
  | Clicked tab writeOk => after (onClicked w tab writeOk)
  | Updated _ _ => w
  end.

Definition run (w : World) (evs : list Event) : World := fold_left step evs w.

(** The event is the resumption of [initializeTransliteratorState]. *)
Definition isResumed (ev : Event) : bool :=
  match ev with
  | Resumed _ _ => true
  | _ => false
  end.

(** The storage call the event rests on, if there is one, succeeded. *)
Definition storageOk (ev : Event) : bool :=
  match ev with
  | Resumed (Some _) _ => true
  | Resumed None _ => false
  | Received _ _ writeOk => writeOk
  | Clicked _ writeOk => writeOk
  | Updated _ _ => true
  end.

(** The event is a toggle: a [TOGGLE_TRANSLITERATOR] message or a click on
    the icon. *)
Definition isToggle (ev : Event) : bool :=
  match ev with
  | Received (Msg (Some type) _) _ _ => String.eqb type "TOGGLE_TRANSLITERATOR"
  | Clicked _ _ => true
  | _ => false
  end.

(** The flag that a read of the storage gives, [true] when none is
    stored. *)
Definition persisted (w : World) : bool :=
  match storage w !! STORAGE_KEY_ENABLED with
  | Some v => v
  | None => true
  end.

(** The badge shows the flag, and the engine is an instance of the class of
    [src/background]. *)
Definition invariant (w : World) : Prop :=
  badge w = Some (updateBadge (isEnabled (transliterator w))) /\
  reachable Background.constructor (transliterator w).
End Worker.

(** ** Recognising Google pages

    [isGooglePage] of the second background script ([src/unnamed/part_009]).
    The host name comes from the browser's URL parser, which is taken as a
    parameter. *)
Module Google.
Definition googleDomains : list jsString :=
  [ js "google.com"; js "www.google.com"; js "mail.google.com";
    js "drive.google.com"; js "docs.google.com"; js "sheets.google.com";
    js "slides.google.com"; js "forms.google.com"; js "translate.google.com";
    js "maps.google.com"; js "calendar.google.com"; js "youtube.com";
    js "www.youtube.com"; js "m.youtube.com"; js "music.youtube.com";
    js "studio.youtube.com" ].

(** [isGooglePage(url)]; [url] is [None] for [undefined], and
    [hostnameOf url] stands for [new URL(url).hostname.toLowerCase()], [None]
    when the constructor throws.  The result is [None] when the function
    throws. *)
Definition isGooglePage (hostnameOf : jsString -> option jsString)
    (url : option jsString) : option bool :=
  match url with
  | None => Some false
  | Some [] => Some false
  | Some url =>
      match hostnameOf url with
      | None => None
      | Some hostname =>
          Some (existsb (fun domain =>
                  sameString hostname domain
                  || endsWith hostname (js "." ++ domain)
                  || stringIncludes hostname (js "google.")
                  || stringIncludes hostname (js "youtube."))
                googleDomains)
      end
  end.
End Google.

(** ** Letters whose case does not matter *)

(** The upper-case letters that have no row of their own in either table. *)
Definition caseFree : jsString := js "ABEFHIJKLMNPRUW".

(** The lower case of a letter of [caseFree]; every other character as it
    is. *)
Definition lowerCaseFree (c : codeUnit) : codeUnit :=
  if existsb (N.eqb c) caseFree then (c + 32)%N else c.

(** The rows of [R] do not tell a letter of [caseFree] from its lower case,
    and write none. *)
Definition caseBlind (R : list Rule) : bool :=
  forallb (fun r =>
    forallb (fun c =>
      Bool.eqb (isSingle (pattern r) (c + 32)%N) (isSingle (pattern r) c)
      && Bool.eqb (isFirst (pattern r) (c + 32)%N) (isFirst (pattern r) c)
      && Bool.eqb (isSecond (pattern r) (c + 32)%N) (isSecond (pattern r) c))
      caseFree
    && forallb (fun a => negb (existsb (N.eqb a) caseFree)) (arabic r)) R.

(** ** The three segments of the real-time segmenter

    The boundaries and the segments that [transliterateRealTime] computes on
    its way, by the expressions of its body. *)
Definition leftBoundary (this : ArabicTransliterator) (currentText : jsString)
    (cursorPosition : Z) : Z :=
  scanLeft (separators this) currentText (cursorPosition - 1)%Z
           (Z.to_nat cursorPosition).

Definition rightBoundary (this : ArabicTransliterator) (currentText : jsString)
    (cursorPosition : Z) : Z :=
  scanRight (separators this) currentText cursorPosition
            (Z.to_nat (jsLength currentText - cursorPosition)).

Definition committedPrefix (this : ArabicTransliterator) (currentText : jsString)
    (cursorPosition : Z) : jsString :=
  substring currentText 0
    (Some (leftBoundary this currentText cursorPosition + 1)%Z).

Definition activeSegment (this : ArabicTransliterator) (currentText : jsString)
    (cursorPosition : Z) : jsString :=
  substring currentText (leftBoundary this currentText cursorPosition + 1)%Z
    (Some (rightBoundary this currentText cursorPosition)).

Definition suffix (this : ArabicTransliterator) (currentText : jsString)
    (cursorPosition : Z) : jsString :=
  substring currentText (rightBoundary this currentText cursorPosition) None.

(** ** The content script: finding the place of a cursor in an editable
    element

    [getTextNodeAndOffsetFromPosition] of [content.js]
    ([src/unnamed/part_005], the same in [src/unnamed/part_003]).  A node is
    a text node, an element with its child nodes, or a node of another kind
    (a comment, say).  The text node returned is named by the number of text
    nodes that come before it in document order. *)
Module Editable.
#[warnings="-register-all"]
Inductive Node : Type :=
  | TextNode (textContent : jsString)
  | ElementNode (childNodes : list Node)
  | OtherNode.

(** [walkTextNodes(node)], with the variable [currentPosition] of the
    enclosing function, and the count of the text nodes passed, threaded
    through. *)
Fixpoint walkTextNodes (position : Z) (node : Node) (currentPosition : Z)
    (passed : nat) : option (nat * Z) * (Z * nat) :=
  match node with
  | TextNode textContent =>
      let textLength := jsLength textContent in
      if (currentPosition + textLength >=? position)%Z
      then (Some (passed, (position - currentPosition)%Z), (currentPosition, passed))
      else (None, ((currentPosition + textLength)%Z, S passed))
  | ElementNode childNodes =>
      (fix loop (children : list Node) (currentPosition : Z) (passed : nat) :=
         match children with
         | [] => (None, (currentPosition, passed))
         | child :: rest =>
             match walkTextNodes position child currentPosition passed with
             | (Some result, st) => (Some result, st)
             | (None, (currentPosition', passed')) =>
                 loop rest currentPosition' passed'
             end
         end) childNodes currentPosition passed
  | OtherNode => (None, (currentPosition, passed))
  end.

(** [getTextNodeAndOffsetFromPosition(element, position)]: the text node, by
    its number in document order, and the offset in it; [None] for [null]. *)
Definition getTextNodeAndOffsetFromPosition (element : Node) (position : Z)
    : option (nat * Z) :=
  fst (walkTextNodes position element 0 0).

(** The texts of the text nodes below a node, in document order. *)
Fixpoint textNodes (node : Node) : list jsString :=
  match node with
  | TextNode textContent => [textContent]
  | ElementNode childNodes =>
      (fix all (children : list Node) : list jsString :=
         match children with
         | [] => []
         | child :: rest => textNodes child ++ all rest
         end) childNodes
  | OtherNode => []
  end.

(** The walk on the list of the texts. *)
Fixpoint locate (position : Z) (texts : list jsString) (currentPosition : Z)
    (passed : nat) : option (nat * Z) * (Z * nat) :=
  match texts with
  | [] => (None, (currentPosition, passed))
  | textContent :: rest =>
      if (currentPosition + jsLength textContent >=? position)%Z
      then (Some (passed, (position - currentPosition)%Z), (currentPosition, passed))
      else locate position rest (currentPosition + jsLength textContent)%Z (S passed)
  end.
End Editable.

(** ** Lemmas on the rule loop *)

Lemma applyRules_cons r R s :
  applyRules (r :: R) s = applyRules R (replace s (pattern r) (arabic r)).
Proof. reflexivity. Qed.

Lemma replace_nil re rep : replace [] re rep = [].
Proof. by destruct re. Qed.

Lemma applyRules_nil R : applyRules R [] = [].
Proof.
  induction R as [|r R IH]; [done|].
  by rewrite applyRules_cons, replace_nil.
Qed.

(** The guard on the empty string changes nothing: the loop maps the empty
    string to itself. *)
Lemma transliterate_applyRules e s : transliterate e s = applyRules (rules e) s.
Proof. destruct s; [by rewrite applyRules_nil|done]. Qed.

(** The equation of the two-character scan. *)
Lemma replace2_two ic c1 c2 rep x y s :
  replace2 ic c1 c2 rep (x :: y :: s) =
    if charMatches ic c1 x && charMatches ic c2 y
    then rep ++ replace2 ic c1 c2 rep s
    else x :: replace2 ic c1 c2 rep (y :: s).
Proof. reflexivity. Qed.

(** Induction that follows the scan: a property of all strings follows from
    the property of the empty string, of one-character strings, and of
    [x :: y :: s] given the property of [s] and of [y :: s]. *)
Lemma scan_ind {A : Type} (Q : list A -> Prop) :
  Q [] -> (forall x, Q [x]) ->
  (forall x y s, Q s -> Q (y :: s) -> Q (x :: y :: s)) ->
  forall s, Q s.
Proof.
  intros Hnil Hone Hstep.
  enough (H : forall s, Q s /\ forall x, Q (x :: s)) by (intros s; apply H).
  induction s as [|y s [IH1 IH2]]; split; auto.
Qed.

(** *** What a replacement leaves in the string *)

Section Preservation.
Variable P : codeUnit -> Prop.

Lemma replace1_Forall ic c rep s :
  Forall P rep -> Forall P s -> Forall P (replace1 ic c rep s).
Proof.
  intros Hrep. induction 1 as [|x s Hx Hs IH]; simpl; [constructor|].
  destruct (charMatches ic c x).
  - by apply Forall_app.
  - by constructor.
Qed.

Lemma replace2_Forall ic c1 c2 rep :
  Forall P rep -> forall s, Forall P s -> Forall P (replace2 ic c1 c2 rep s).
Proof.
  intros Hrep s. induction s as [| x | x y s IH1 IH2] using scan_ind;
    intros Hs; [constructor | done |].
  rewrite replace2_two.
  inversion Hs as [|? ? Hx Hys]; subst.
  inversion Hys as [|? ? Hy Hs']; subst.
  destruct (charMatches ic c1 x && charMatches ic c2 y).
  - apply Forall_app. split; [done | by apply IH1].
  - constructor; [done | by apply IH2].
Qed.

Lemma replace_Forall re rep s :
  Forall P rep -> Forall P s -> Forall P (replace s re rep).
Proof.
  destruct re; simpl; intros; [by apply replace1_Forall | by apply replace2_Forall].
Qed.

Lemma applyRules_Forall R :
  Forall (fun r => Forall P (arabic r)) R ->
  forall s, Forall P s -> Forall P (applyRules R s).
Proof.
  induction 1 as [|r R Hr HR IH]; intros s Hs; [done|].
  rewrite applyRules_cons. apply IH. by apply replace_Forall.
Qed.
End Preservation.

(** *** Strings a row leaves alone *)

Lemma replace1_id ic c rep s :
  Forall (fun x => charMatches ic c x = false) s -> replace1 ic c rep s = s.
Proof.
  induction 1 as [|x s Hx Hs IH]; simpl; [done|]. by rewrite Hx, IH.
Qed.

(** A two-character row finds nothing where no character matches its second
    character. *)
Lemma replace2_id ic c1 c2 rep s :
  Forall (fun x => charMatches ic c2 x = false) s -> replace2 ic c1 c2 rep s = s.
Proof.
  induction 1 as [|x s Hx Hs IH]; [done|].
  destruct s as [|y s]; [done|].
  inversion Hs as [|? ? Hy ?]; subst.
  rewrite replace2_two, Hy, andb_false_r. by rewrite IH.
Qed.

Lemma replace_id re rep s :
  Forall (fun x => isSingle re x = false /\ isSecond re x = false) s ->
  replace s re rep = s.
Proof.
  intros H. destruct re as [c ic | c1 c2 ic]; simpl in *.
  - apply replace1_id. eapply Forall_impl; [exact H|]. by intros x [? _].
  - apply replace2_id. eapply Forall_impl; [exact H|]. by intros x [_ ?].
Qed.

Lemma anyRule_false_cons f r R c :
  anyRule f (r :: R) c = false <-> f (pattern r) c = false /\ anyRule f R c = false.
Proof. unfold anyRule. simpl. apply orb_false_iff. Qed.

Lemma anyRule_false_In f R c r :
  anyRule f R c = false -> In r R -> f (pattern r) c = false.
Proof.
  induction R as [|r' R IH]; [done|]. intros H [->|Hin].
  - by apply anyRule_false_cons in H as [? _].
  - apply anyRule_false_cons in H as [_ ?]. by apply IH.
Qed.

(** The loop leaves alone a string none of whose characters matches a
    one-character row or the second character of a two-character row. *)
Lemma applyRules_id R s :
  Forall (fun x => anyRule isSingle R x = false /\ anyRule isSecond R x = false) s ->
  applyRules R s = s.
Proof.
  revert s. induction R as [|r R IH]; intros s H; [done|].
  rewrite applyRules_cons, replace_id.
  - apply IH. eapply Forall_impl; [exact H|]. intros x [H1 H2].
    apply anyRule_false_cons in H1 as [_ ?].
    by apply anyRule_false_cons in H2 as [_ ?].
  - eapply Forall_impl; [exact H|]. intros x [H1 H2].
    apply anyRule_false_cons in H1 as [? _].
    by apply anyRule_false_cons in H2 as [? _].
Qed.

Lemma inPattern_single re c : inPattern re c = false -> isSingle re c = false.
Proof. destruct re; simpl; [done|]. done. Qed.

Lemma inPattern_first re c : inPattern re c = false -> isFirst re c = false.
Proof. destruct re; simpl; [done|]. by intros [? _]%orb_false_iff. Qed.

Lemma inPattern_second re c : inPattern re c = false -> isSecond re c = false.
Proof. destruct re; simpl; [done|]. by intros [_ ?]%orb_false_iff. Qed.

Lemma covered_anyRule f R c :
  (forall re x, inPattern re x = false -> f re x = false) ->
  covered R c = false -> anyRule f R c = false.
Proof.
  intros Hf. induction R as [|r R IH]; [done|].
  intros [H1 H2]%anyRule_false_cons. apply anyRule_false_cons. split; auto.
Qed.

Lemma applyRules_uncovered R s :
  Forall (fun x => covered R x = false) s -> applyRules R s = s.
Proof.
  intros H. apply applyRules_id. eapply Forall_impl; [exact H|].
  intros x Hx. split.
  - by apply (covered_anyRule isSingle), Hx; apply inPattern_single.
  - by apply (covered_anyRule isSecond), Hx; apply inPattern_second.
Qed.

(** *** Replacement and concatenation *)

Lemma replace1_app ic c rep a b :
  replace1 ic c rep (a ++ b) = replace1 ic c rep a ++ replace1 ic c rep b.
Proof.
  induction a as [|x a IH]; simpl; [done|].
  destruct (charMatches ic c x); rewrite IH; [by rewrite app_assoc | done].
Qed.

(** A two-character row distributes over a cut that no match straddles. *)
Lemma replace2_app ic c1 c2 rep a b :
  (forall x y, last a = Some x -> head b = Some y ->
     charMatches ic c1 x && charMatches ic c2 y = false) ->
  replace2 ic c1 c2 rep (a ++ b) =
    replace2 ic c1 c2 rep a ++ replace2 ic c1 c2 rep b.
Proof.
  induction a as [| x | x y a IH1 IH2] using scan_ind; intros H; [done | |].
  - destruct b as [|y b]; [done|].
    change ([x] ++ y :: b) with (x :: y :: b).
    by rewrite replace2_two, (H x y).
  - change ((x :: y :: a) ++ b) with (x :: y :: (a ++ b)).
    rewrite !replace2_two.
    destruct (charMatches ic c1 x && charMatches ic c2 y).
    + rewrite IH1; [by rewrite app_assoc|].
      intros x' y' Hx' Hy'. apply H; [|done].
      rewrite !last_cons, Hx'. done.
    + change (y :: a ++ b) with ((y :: a) ++ b). rewrite IH2; [done|].
      intros x' y' Hx' Hy'. apply H; [|done].
      rewrite last_cons, Hx'. done.
Qed.

(** *** Ends of a replaced string *)

Lemma replace1_nonempty ic c rep s :
  rep <> [] -> s <> [] -> replace1 ic c rep s <> [].
Proof.
  intros Hrep Hs. destruct s as [|x s]; [done|]. simpl.
  destruct (charMatches ic c x); [|done].
  destruct rep; done.
Qed.

Lemma replace2_nonempty ic c1 c2 rep s :
  rep <> [] -> s <> [] -> replace2 ic c1 c2 rep s <> [].
Proof.
  intros Hrep Hs. destruct s as [|x [|y s]]; [done | done |].
  rewrite replace2_two.
  destruct (charMatches ic c1 x && charMatches ic c2 y); [|done].
  destruct rep; done.
Qed.

Lemma replace_nonempty re rep s :
  rep <> [] -> s <> [] -> replace s re rep <> [].
Proof.
  destruct re; simpl; [apply replace1_nonempty | apply replace2_nonempty].
Qed.

Lemma last_elem_of (l : jsString) z : last l = Some z -> z ∈ l.
Proof.
  intros H. apply last_Some in H as [l' ->].
  apply elem_of_app. right. apply elem_of_cons. by left.
Qed.

(** The first character of a replaced string is the first character of the
    string or comes from the replacement. *)
Lemma head_replace re rep s z :
  rep <> [] -> head (replace s re rep) = Some z -> head s = Some z \/ z ∈ rep.
Proof.
  intros Hrep. destruct rep as [|r0 rep]; [done|].
  destruct re as [c ic | c1 c2 ic]; simpl.
  - destruct s as [|x s]; simpl; [done|].
    destruct (charMatches ic c x); simpl; intros [= ->]; [right | by left].
    apply elem_of_cons. by left.
  - destruct s as [|x [|y s]]; [done | by left |].
    rewrite replace2_two.
    destruct (charMatches ic c1 x && charMatches ic c2 y); simpl;
      intros [= ->]; [right | by left].
    apply elem_of_cons. by left.
Qed.

(** The last character likewise. *)
Lemma last_replace1 ic c rep s z :
  rep <> [] ->
  last (replace1 ic c rep s) = Some z -> last s = Some z \/ z ∈ rep.
Proof.
  intros Hrep. destruct s as [|x s _] using rev_ind; [done|].
  rewrite replace1_app, !last_app. simpl.
  destruct (charMatches ic c x); simpl.
  - rewrite app_nil_r. destruct (last rep) as [z'|] eqn:E.
    + intros [= ->]. right. by apply last_elem_of.
    + by apply last_None in E.
  - intros [= ->]. by left.
Qed.

Lemma last_replace2 ic c1 c2 rep s z :
  rep <> [] ->
  last (replace2 ic c1 c2 rep s) = Some z -> last s = Some z \/ z ∈ rep.
Proof.
  intros Hrep. revert z.
  induction s as [| x | x y s IH1 IH2] using scan_ind; intros z;
    [done | by left |].
  rewrite replace2_two.
  destruct (charMatches ic c1 x && charMatches ic c2 y).
  - rewrite last_app. destruct (last (replace2 ic c1 c2 rep s)) as [z'|] eqn:E.
    + intros [= ->]. destruct (IH1 z eq_refl) as [H|H]; [left | by right].
      by rewrite !last_cons, H.
    + intros H. right. by apply last_elem_of.
  - rewrite last_cons.
    destruct (last (replace2 ic c1 c2 rep (y :: s))) as [z'|] eqn:E.
    + intros [= ->]. destruct (IH2 z eq_refl) as [H|H]; [left | by right].
      by rewrite last_cons, H.
    + apply last_None in E. by apply replace2_nonempty in E.
Qed.

Lemma last_replace re rep s z :
  rep <> [] -> last (replace s re rep) = Some z -> last s = Some z \/ z ∈ rep.
Proof.
  destruct re; simpl; [apply last_replace1 | apply last_replace2].
Qed.

(** ** Properties of a table, decided by evaluation *)

Lemma charMatches_variants ic p c : charMatches ic p c = true -> c ∈ variants p.
Proof.
  unfold charMatches, Canonicalize, variants. intros H%N.eqb_eq.
  destruct ic.
  - unfold toUpperCase in H at 2.
    destruct ((97 <=? c)%N && (c <=? 122)%N) eqn:E.
    + apply andb_true_iff in E as [E1%N.leb_le E2%N.leb_le].
      assert (c = (toUpperCase p + 32)%N) as -> by lia.
      apply elem_of_cons; right. apply elem_of_cons; right.
      apply elem_of_cons; by left.
    + subst c. apply elem_of_cons; right. apply elem_of_cons; by left.
  - subst c. apply elem_of_cons; by left.
Qed.

Lemma anyRule_true f (R : list Rule) c :
  anyRule f R c = true <-> exists r, r ∈ R /\ f (pattern r) c = true.
Proof.
  unfold anyRule. rewrite existsb_exists. split; intros (r & Hr & H);
    exists r; split; try done; by apply list_elem_of_In.
Qed.

Lemma anyRule_false_elem f (R : list Rule) c r :
  anyRule f R c = false -> r ∈ R -> f (pattern r) c = false.
Proof. intros H Hr. by eapply anyRule_false_In; [|apply list_elem_of_In]. Qed.

Lemma covered_patternChars R c : covered R c = true -> c ∈ patternChars R.
Proof.
  intros (r & Hr & H)%anyRule_true. unfold patternChars.
  apply list_elem_of_In, in_flat_map. exists r.
  split; [by apply list_elem_of_In|]. apply list_elem_of_In.
  destruct (pattern r) as [p ic | p1 p2 ic]; simpl in H.
  - by apply charMatches_variants in H.
  - apply elem_of_app. apply orb_true_iff in H as [H|H];
      [left | right]; by apply charMatches_variants in H.
Qed.

(** A check that passes on every pattern character holds of every covered
    character. *)
Lemma covered_forallb R (g : codeUnit -> bool) c :
  forallb g (patternChars R) = true -> covered R c = true -> g c = true.
Proof.
  intros Hall Hc. rewrite forallb_forall in Hall.
  by apply Hall, list_elem_of_In, covered_patternChars.
Qed.

Lemma uncovered_first R c : covered R c = false -> anyRule isFirst R c = false.
Proof. apply covered_anyRule, inPattern_first. Qed.

Lemma uncovered_second R c : covered R c = false -> anyRule isSecond R c = false.
Proof. apply covered_anyRule, inPattern_second. Qed.

Lemma uncovered_single R c : covered R c = false -> anyRule isSingle R c = false.
Proof. apply covered_anyRule, inPattern_single. Qed.

Lemma digraphsApart_spec R c :
  digraphsApart R = true ->
  anyRule isFirst R c && anyRule isSecond R c = false.
Proof.
  intros H. destruct (covered R c) eqn:E.
  - apply negb_true_iff. by apply (covered_forallb R _ c H).
  - by rewrite (uncovered_first _ _ E).
Qed.

Lemma secondsSingle_spec R c :
  secondsSingle R = true ->
  anyRule isSingle R c = false -> anyRule isSecond R c = false.
Proof.
  intros H Hs. destruct (covered R c) eqn:E.
  - pose proof (covered_forallb R _ c H E) as Hc. simpl in Hc.
    rewrite Hs in Hc. by destruct (anyRule isSecond R c).
  - by apply uncovered_second.
Qed.

Lemma inertTable_spec R r c :
  inertTable R = true -> r ∈ R -> c ∈ arabic r -> covered R c = false.
Proof.
  unfold inertTable. rewrite forallb_forall. intros H Hr Hc.
  specialize (H r (proj1 (list_elem_of_In _ _) Hr)).
  rewrite forallb_forall in H. apply negb_true_iff, H. by apply list_elem_of_In.
Qed.

Lemma oneLetter_spec R r : oneLetter R = true -> r ∈ R -> length (arabic r) = 1.
Proof.
  unfold oneLetter. rewrite forallb_forall. intros H Hr.
  by apply Nat.eqb_eq, H, list_elem_of_In.
Qed.

Lemma separatorsUncovered_spec R seps c :
  separatorsUncovered R seps = true ->
  includes seps (Some c) = true -> covered R c = false.
Proof.
  unfold separatorsUncovered. rewrite forallb_forall. simpl.
  intros H (c' & Hin & ->%N.eqb_eq)%existsb_exists.
  by apply negb_true_iff, H.
Qed.

(** ** The loop over a table that passes the checks *)

Lemma replace_app re rep a b :
  (forall x y, last a = Some x -> head b = Some y ->
     isFirst re x && isSecond re y = false) ->
  replace (a ++ b) re rep = replace a re rep ++ replace b re rep.
Proof.
  destruct re as [c ic | c1 c2 ic]; simpl; intros H.
  - apply replace1_app.
  - by apply replace2_app.
Qed.

Lemma replace1_clears ic c rep s :
  Forall (fun x => charMatches ic c x = false) rep ->
  Forall (fun x => charMatches ic c x = false) (replace1 ic c rep s).
Proof.
  intros Hrep. induction s as [|x s IH]; simpl; [constructor|].
  destruct (charMatches ic c x) eqn:E.
  - by apply Forall_app.
  - by constructor.
Qed.

Lemma replace_clears re rep s :
  Forall (fun x => isSingle re x = false) rep ->
  Forall (fun x => isSingle re x = false) (replace s re rep).
Proof.
  destruct re as [c ic | c1 c2 ic]; simpl; intros H.
  - by apply replace1_clears.
  - apply Forall_forall. done.
Qed.

Lemma replace1_length ic c rep s :
  length rep <= 1 -> length (replace1 ic c rep s) <= length s.
Proof.
  intros Hrep. induction s as [|x s IH]; simpl; [done|].
  destruct (charMatches ic c x); [rewrite length_app|]; simpl; lia.
Qed.

Lemma replace2_length ic c1 c2 rep s :
  length rep <= 1 -> length (replace2 ic c1 c2 rep s) <= length s.
Proof.
  intros Hrep.
  induction s as [| x | x y s IH1 IH2] using scan_ind; [done | done |].
  rewrite replace2_two.
  destruct (charMatches ic c1 x && charMatches ic c2 y);
    [rewrite length_app|]; simpl in *; lia.
Qed.

Lemma replace_length re rep s :
  length rep <= 1 -> length (replace s re rep) <= length s.
Proof.
  destruct re; simpl; [apply replace1_length | apply replace2_length].
Qed.

Section Table.
Variable T : list Rule.
Hypothesis T_inert : inertTable T = true.
Hypothesis T_oneLetter : oneLetter T = true.

Lemma arabic_nonempty r : r ∈ T -> arabic r <> [].
Proof.
  intros Hr E. pose proof (oneLetter_spec T r T_oneLetter Hr) as H.
  by rewrite E in H.
Qed.

Lemma noSplit_row r a b :
  r ∈ T -> noSplit T a b ->
  forall x y, last a = Some x -> head b = Some y ->
    isFirst (pattern r) x && isSecond (pattern r) y = false.
Proof.
  intros Hr H x y Hx Hy. specialize (H x y Hx Hy).
  apply andb_false_iff in H as [H|H]; apply andb_false_iff; [left | right];
    by eapply anyRule_false_elem.
Qed.

Lemma noSplit_replace r a b :
  r ∈ T -> noSplit T a b ->
  noSplit T (replace a (pattern r) (arabic r)) (replace b (pattern r) (arabic r)).
Proof.
  intros Hr H x y Hx Hy.
  apply last_replace in Hx; [|by apply arabic_nonempty].
  apply head_replace in Hy; [|by apply arabic_nonempty].
  destruct Hx as [Hx|Hx].
  - destruct Hy as [Hy|Hy]; [by apply H|].
    rewrite (uncovered_second T y), andb_false_r; [done|].
    by eapply inertTable_spec.
  - rewrite (uncovered_first T x); [done|]. by eapply inertTable_spec.
Qed.

(** The loop distributes over a cut that no digraph straddles. *)
Lemma applyRules_app_sub R :
  R ⊆ T -> forall a b, noSplit T a b ->
  applyRules R (a ++ b) = applyRules R a ++ applyRules R b.
Proof.
  induction R as [|r R IH]; intros Hsub a b H; [done|].
  assert (Hr : r ∈ T) by (apply Hsub, elem_of_cons; by left).
  assert (HR : R ⊆ T) by (intros r' Hr'; apply Hsub, elem_of_cons; by right).
  rewrite !applyRules_cons, replace_app by (by apply noSplit_row).
  apply IH; [done|]. by apply noSplit_replace.
Qed.

Lemma applyRules_app a b :
  noSplit T a b -> applyRules T (a ++ b) = applyRules T a ++ applyRules T b.
Proof. by apply applyRules_app_sub. Qed.

Lemma applyRules_nonempty_sub R :
  R ⊆ T -> forall s, s <> [] -> applyRules R s <> [].
Proof.
  induction R as [|r R IH]; intros Hsub s Hs; [done|].
  rewrite applyRules_cons. apply IH.
  - intros r' Hr'. apply Hsub, elem_of_cons. by right.
  - apply replace_nonempty; [|done].
    apply arabic_nonempty, Hsub, elem_of_cons. by left.
Qed.

Lemma applyRules_length_sub R :
  R ⊆ T -> forall s, length (applyRules R s) <= length s.
Proof.
  induction R as [|r R IH]; intros Hsub s; [done|].
  rewrite applyRules_cons.
  etrans; [apply IH; intros r' Hr'; apply Hsub, elem_of_cons; by right|].
  apply replace_length. rewrite (oneLetter_spec T r); [done | done |].
  apply Hsub, elem_of_cons. by left.
Qed.

(** After the loop no character is left that a one-character row reads. *)
Lemma applyRules_clears_sub R :
  R ⊆ T -> forall s,
  Forall (fun x => anyRule isSingle R x = false) (applyRules R s).
Proof.
  induction R as [|r R IH]; intros Hsub s; [by apply Forall_forall|].
  assert (Hr : r ∈ T) by (apply Hsub, elem_of_cons; by left).
  assert (HR : R ⊆ T) by (intros r' Hr'; apply Hsub, elem_of_cons; by right).
  rewrite applyRules_cons.
  assert (Hinert : forall r', r' ∈ T ->
            Forall (fun x => isSingle (pattern r) x = false) (arabic r')).
  { intros r' Hr'. apply Forall_forall. intros c Hc.
    apply (anyRule_false_elem isSingle T c r); [|done].
    apply uncovered_single. by eapply inertTable_spec. }
  eapply Forall_impl.
  - apply Forall_and. split.
    + apply (applyRules_Forall (fun x => isSingle (pattern r) x = false)).
      * apply Forall_forall. intros r' Hr'. by apply Hinert, HR.
      * apply replace_clears. by apply Hinert.
    + apply (IH HR).
  - intros x [H1 H2]. simpl in *. by apply anyRule_false_cons.
Qed.

Hypothesis T_secondsSingle : secondsSingle T = true.

(** A second pass of the loop changes nothing. *)
Lemma applyRules_idempotent s :
  applyRules T (applyRules T s) = applyRules T s.
Proof.
  apply applyRules_id. eapply Forall_impl; [by apply applyRules_clears_sub|].
  intros x Hx. simpl in Hx. split; [done|]. by apply secondsSingle_spec.
Qed.
End Table.

(** ** Substrings and the two boundary scans *)

Lemma substring_prefix s c : substring s 0 (Some c) = take (Z.to_nat c) s.
Proof.
  unfold substring, clampIndex, jsLength.
  replace (Z.min (Z.min (Z.max 0 0) (Z.of_nat (length s)))
                 (Z.min (Z.max c 0) (Z.of_nat (length s)))) with 0%Z by lia.
  rewrite Z.sub_0_r. simpl. rewrite drop_0.
  destruct (Z_le_gt_dec c (Z.of_nat (length s))) as [Hle|Hgt].
  - f_equal. lia.
  - rewrite !take_ge; [done | lia | lia].
Qed.

Lemma substring_suffix s r : substring s r None = drop (Z.to_nat r) s.
Proof.
  unfold substring, clampIndex, jsLength.
  destruct (Z_le_gt_dec r (Z.of_nat (length s))) as [Hle|Hgt].
  - rewrite take_ge; [f_equal; lia|]. rewrite length_drop. lia.
  - rewrite (drop_ge s (Z.to_nat r)) by lia.
    replace (Z.to_nat _) with 0 by lia. done.
Qed.

Lemma substring_middle s a b :
  (0 <= a <= b)%Z -> (b <= jsLength s)%Z ->
  substring s a (Some b) = take (Z.to_nat b - Z.to_nat a) (drop (Z.to_nat a) s).
Proof.
  unfold substring, clampIndex, jsLength. intros Hab Hb. f_equal; [lia|].
  f_equal. lia.
Qed.

(** The three segments of [transliterateRealTime] put together give the
    text back. *)
Lemma segments_app s a b :
  (0 <= a <= b)%Z -> (b <= jsLength s)%Z ->
  s = substring s 0 (Some a) ++ substring s a (Some b) ++ substring s b None.
Proof.
  intros Hab Hb.
  rewrite substring_prefix, substring_suffix, substring_middle by done.
  rewrite <- (take_drop (Z.to_nat a) s) at 1. f_equal.
  rewrite <- (take_drop (Z.to_nat b - Z.to_nat a) (drop (Z.to_nat a) s)) at 1.
  f_equal. rewrite drop_drop. f_equal. lia.
Qed.

Lemma includes_Some seps o :
  includes seps o = true -> exists c, o = Some c /\ includes seps (Some c) = true.
Proof. destruct o as [c|]; [by exists c | done]. Qed.

Lemma stringAt_Some s i c :
  stringAt s i = Some c -> (0 <= i < jsLength s)%Z /\ s !! Z.to_nat i = Some c.
Proof.
  unfold stringAt, jsLength. destruct (i <? 0)%Z eqn:E; [done|].
  apply Z.ltb_ge in E. intros H. split; [|done].
  apply lookup_lt_Some in H. lia.
Qed.

Lemma stringAt_outside s i : (i < 0 \/ jsLength s <= i)%Z -> stringAt s i = None.
Proof.
  unfold stringAt, jsLength. intros H. destruct (i <? 0)%Z eqn:E; [done|].
  apply Z.ltb_ge in E. apply lookup_ge_None. lia.
Qed.

(** The left scan returns [-1] or the index of a separator before the
    cursor. *)
Lemma scanLeft_spec seps s n i :
  scanLeft seps s i n = (-1)%Z \/
  exists c, (i - Z.of_nat n < scanLeft seps s i n <= i)%Z /\
            stringAt s (scanLeft seps s i n) = Some c /\
            includes seps (Some c) = true.
Proof.
  revert i. induction n as [|n IH]; intros i; [by left|]. cbn [scanLeft].
  destruct (includes seps (stringAt s i)) eqn:E.
  - right. apply includes_Some in E as (c & E1 & E2). exists c.
    split; [lia | done].
  - destruct (IH (i - 1)%Z) as [H | (c & H1 & H2)]; [by left|].
    right. exists c. split; [lia | done].
Qed.

(** The right scan returns the length or the index of a separator at or
    after its start. *)
Lemma scanRight_spec seps s n i :
  scanRight seps s i n = jsLength s \/
  exists c, (i <= scanRight seps s i n < i + Z.of_nat n)%Z /\
            stringAt s (scanRight seps s i n) = Some c /\
            includes seps (Some c) = true.
Proof.
  revert i. induction n as [|n IH]; intros i; [by left|]. cbn [scanRight].
  destruct (includes seps (stringAt s i)) eqn:E.
  - right. apply includes_Some in E as (c & E1 & E2). exists c.
    split; [lia | done].
  - destruct (IH (i + 1)%Z) as [H | (c & H1 & H2)]; [by left|].
    right. exists c. split; [lia | done].
Qed.

(** Indices beyond the text are skipped by the left scan, negative ones by
    the right scan. *)
Lemma scanLeft_beyond seps s m :
  scanLeft seps s (Z.of_nat (m + length s) - 1) (m + length s)
  = scanLeft seps s (Z.of_nat (length s) - 1) (length s).
Proof.
  induction m as [|m IH]; [done|].
  change (S m + length s) with (S (m + length s)). cbn [scanLeft].
  rewrite stringAt_outside by (unfold jsLength; lia). cbn [includes].
  replace (Z.of_nat (S (m + length s)) - 1 - 1)%Z
    with (Z.of_nat (m + length s) - 1)%Z by lia. done.
Qed.

Lemma scanRight_negative seps s m n :
  scanRight seps s (- Z.of_nat m) (m + n) = scanRight seps s 0 n.
Proof.
  induction m as [|m IH]; [done|].
  change (S m + n) with (S (m + n)). cbn [scanRight].
  rewrite stringAt_outside by lia. cbn [includes].
  replace (- Z.of_nat (S m) + 1)%Z with (- Z.of_nat m)%Z by lia. done.
Qed.

Lemma last_take_S (s : jsString) n c :
  s !! n = Some c -> last (take (S n) s) = Some c.
Proof. intros H. by rewrite (take_S_r _ _ _ H), last_snoc. Qed.

Lemma head_drop (s : jsString) n : head (drop n s) = s !! n.
Proof. by rewrite head_lookup, lookup_drop, Nat.add_0_r. Qed.

(** ** The segmenter over a table that passes the checks *)

Section Segmenter.
Variable T : list Rule.
Variable seps : list codeUnit.
Hypothesis T_inert : inertTable T = true.
Hypothesis T_oneLetter : oneLetter T = true.
Hypothesis T_apart : digraphsApart T = true.
Hypothesis seps_uncovered : separatorsUncovered T seps = true.

(** The boundaries found by the two scans are ordered and in range. *)
Lemma boundaries_ordered t c :
  let leftBoundary := scanLeft seps t (c - 1)%Z (Z.to_nat c) in
  let rightBoundary := scanRight seps t c (Z.to_nat (jsLength t - c)) in
  (0 <= leftBoundary + 1 <= rightBoundary)%Z /\ (rightBoundary <= jsLength t)%Z.
Proof.
  intros lb rb.
  assert (Hlen : (0 <= jsLength t)%Z) by (unfold jsLength; lia).
  destruct (scanLeft_spec seps t (Z.to_nat c) (c - 1)%Z)
    as [Hl | (x & Hl1 & Hl2 & _)];
    destruct (scanRight_spec seps t (Z.to_nat (jsLength t - c)) c)
      as [Hr | (y & Hr1 & Hr2 & _)]; fold lb in Hl || fold lb in Hl1, Hl2;
    fold rb in Hr || fold rb in Hr1, Hr2;
    try apply stringAt_Some in Hl2 as [Hl2 _];
    try apply stringAt_Some in Hr2 as [Hr2 _]; lia.
Qed.

(** Transliterating the three segments and concatenating gives the
    transliteration of the text. *)
Lemma segments_independent t c :
  let leftBoundary := scanLeft seps t (c - 1)%Z (Z.to_nat c) in
  let rightBoundary := scanRight seps t c (Z.to_nat (jsLength t - c)) in
  applyRules T (substring t 0 (Some (leftBoundary + 1)%Z))
    ++ applyRules T (substring t (leftBoundary + 1)%Z (Some rightBoundary))
    ++ applyRules T (substring t rightBoundary None)
  = applyRules T t.
Proof.
  intros lb rb. destruct (boundaries_ordered t c) as [Hord Hlen].
  fold lb rb in Hord, Hlen.
  rewrite (segments_app t (lb + 1)%Z rb Hord Hlen) at 4.
  rewrite (applyRules_app T T_inert T_oneLetter).
  - f_equal. symmetry. apply (applyRules_app T T_inert T_oneLetter).
    (* the suffix is empty or starts with the separator at [rightBoundary] *)
    intros x y _ Hy. rewrite substring_suffix, head_drop in Hy.
    destruct (scanRight_spec seps t (Z.to_nat (jsLength t - c)) c)
      as [Hr | (y' & _ & Hr2 & Hr3)]; fold rb in Hr || fold rb in Hr2.
    + rewrite lookup_ge_None_2 in Hy; [done|].
      fold rb. rewrite Hr. unfold jsLength. lia.
    + apply stringAt_Some in Hr2 as [_ Hr2]. rewrite Hr2 in Hy.
      injection Hy as ->.
      rewrite (uncovered_second T y), andb_false_r; [done|].
      by eapply separatorsUncovered_spec.
  - (* the prefix is empty or ends with the separator at [leftBoundary] *)
    intros x y Hx _. rewrite substring_prefix in Hx.
    destruct (scanLeft_spec seps t (Z.to_nat c) (c - 1)%Z)
      as [Hl | (x' & Hl1 & Hl2 & Hl3)]; fold lb in Hl || fold lb in Hl1, Hl2.
    + by rewrite Hl in Hx.
    + apply stringAt_Some in Hl2 as [Hl0 Hl2].
      replace (Z.to_nat (lb + 1)) with (S (Z.to_nat lb)) in Hx by lia.
      rewrite (last_take_S _ _ _ Hl2) in Hx. injection Hx as ->.
      rewrite (uncovered_first T x); [done|].
      by eapply separatorsUncovered_spec.
Qed.

(** Where the cut splits a digraph [x], [y], the loop still distributes
    around the pair. *)
Lemma split_shape a x y b :
  anyRule isFirst T x = true -> anyRule isSecond T y = true ->
  applyRules T (a ++ [x]) = applyRules T a ++ applyRules T [x] /\
  applyRules T ((a ++ [x]) ++ y :: b)
  = applyRules T a ++ applyRules T [x; y] ++ applyRules T b.
Proof.
  intros E1 E2.
  pose proof (applyRules_app T T_inert T_oneLetter) as Happ.
  pose proof (digraphsApart_spec T x T_apart) as Hx.
  pose proof (digraphsApart_spec T y T_apart) as Hy.
  rewrite E1 in Hx. rewrite E2, andb_true_r in Hy. simpl in Hx.
  replace ((a ++ [x]) ++ y :: b) with (a ++ ([x; y] ++ b))
    by by rewrite <- !app_assoc.
  rewrite !Happ; [done | | | ].
  - intros x' y' Hx' _. injection Hx' as <-. by rewrite Hy.
  - intros x' y' _ Hy'. injection Hy' as <-. by rewrite Hx, andb_false_r.
  - intros x' y' _ Hy'. injection Hy' as <-. by rewrite Hx, andb_false_r.
Qed.

(** The transliteration of a prefix is never longer than that of the
    text. *)
Lemma prefix_length a b :
  length (applyRules T a) <= length (applyRules T (a ++ b)).
Proof.
  pose proof (applyRules_app T T_inert T_oneLetter) as Happ.
  destruct (last a) as [x|] eqn:Ex; cycle 1.
  { rewrite Happ, length_app; [lia|]. intros x y Hx. congruence. }
  destruct (head b) as [y|] eqn:Ey; cycle 1.
  { rewrite Happ, length_app; [lia|]. intros x' y' _ Hy. congruence. }
  destruct (anyRule isFirst T x && anyRule isSecond T y) eqn:E.
  - (* the cut splits a digraph *)
    apply andb_true_iff in E as [E1 E2].
    apply last_Some in Ex as [a' ->]. destruct b as [|y' b']; [done|].
    injection Ey as ->.
    destruct (split_shape a' x y b' E1 E2) as [-> ->].
    rewrite !length_app.
    pose proof (applyRules_length_sub T T_oneLetter T (reflexivity T) [x]).
    assert (applyRules T [x; y] <> [])
      by by apply (applyRules_nonempty_sub T T_oneLetter T).
    destruct (applyRules T [x; y]); [done|]. simpl in *. lia.
  - rewrite Happ, length_app; [lia|].
    intros x' y' Hx' Hy'. congruence.
Qed.

(** A cursor that does not split a digraph cuts the text where the loop
    distributes. *)
Lemma cursor_noSplit t c :
  (0 <= c <= jsLength t)%Z -> splitsDigraph T t c = false ->
  noSplit T (take (Z.to_nat c) t) (drop (Z.to_nat c) t).
Proof.
  unfold splitsDigraph, stringAt, jsLength. intros Hc H x y Hx Hy.
  rewrite head_drop in Hy. rewrite last_lookup, length_take_le in Hx by lia.
  destruct (Z.to_nat c) as [|n] eqn:En; [done|]. simpl in Hx.
  rewrite lookup_take_lt in Hx by lia.
  replace (Z.to_nat (c - 1)) with n in H by lia.
  destruct (c - 1 <? 0)%Z eqn:E1; [lia|].
  destruct (c <? 0)%Z eqn:E2; [lia|].
  by rewrite Hx, Hy in H.
Qed.

Lemma prefix_exact t c :
  (0 <= c <= jsLength t)%Z -> splitsDigraph T t c = false ->
  take (length (applyRules T (take (Z.to_nat c) t))) (applyRules T t)
  = applyRules T (take (Z.to_nat c) t).
Proof.
  intros Hc H. rewrite <- (take_drop (Z.to_nat c) t) at 2.
  rewrite (applyRules_app T T_inert T_oneLetter) by by apply cursor_noSplit.
  apply take_app_length.
Qed.
(** A cursor between the two letters [x], [y] of a digraph: the returned
    text starts with the transliterated prefix only if the letter of the pair
    is what [x] alone becomes. *)
Lemma prefix_split t c x y :
  (0 <= c <= jsLength t)%Z ->
  stringAt t (c - 1) = Some x -> stringAt t c = Some y ->
  anyRule isFirst T x = true -> anyRule isSecond T y = true ->
  take (length (applyRules T (take (Z.to_nat c) t))) (applyRules T t)
  = applyRules T (take (Z.to_nat c) t) ->
  take 1 (applyRules T [x; y]) = applyRules T [x].
Proof.
  intros Hc Hx Hy E1 E2.
  apply stringAt_Some in Hx as [Hx1 Hx]. apply stringAt_Some in Hy as [_ Hy].
  replace (Z.to_nat c) with (S (Z.to_nat (c - 1))) in * by lia.
  set (n := Z.to_nat (c - 1)) in *.
  rewrite <- (take_drop (S n) t) at 2.
  rewrite (take_S_r t n x Hx), (drop_S t y (S n) Hy).
  destruct (split_shape (take n t) x y (drop (S (S n)) t) E1 E2) as [-> ->].
  assert (Hone : length (applyRules T [x]) = 1).
  { pose proof (applyRules_length_sub T T_oneLetter T (reflexivity T) [x]).
    assert (applyRules T [x] <> [])
      by by apply (applyRules_nonempty_sub T T_oneLetter T).
    destruct (applyRules T [x]); [done|]. simpl in *. lia. }
  assert (Hne : applyRules T [x; y] <> [])
    by by apply (applyRules_nonempty_sub T T_oneLetter T).
  rewrite length_app, Hone, take_app_add. intros H%app_inv_head.
  rewrite take_app_le in H; [done|].
  destruct (applyRules T [x; y]); [done|]. simpl. lia.
Qed.
End Segmenter.

(** ** The two shipped tables *)

Lemma Background_checks : tableChecks Background.theRules theSeparators = true.
Proof. vm_compute. reflexivity. Qed.

Lemma Part008_checks : tableChecks Part008.theRules theSeparators = true.
Proof. vm_compute. reflexivity. Qed.

Lemma tableChecks_spec R seps :
  tableChecks R seps = true ->
  inertTable R = true /\ oneLetter R = true /\ digraphsApart R = true /\
  secondsSingle R = true /\ separatorsUncovered R seps = true.
Proof.
  unfold tableChecks. rewrite !andb_true_iff. tauto.
Qed.

(** The setters keep the table and the separators. *)
Lemma reachable_frame e0 e :
  reachable e0 e -> rules e = rules e0 /\ separators e = separators e0.
Proof. induction 1; simpl; auto. Qed.

Lemma shipped_checks e : shipped e -> tableChecks (rules e) (separators e) = true.
Proof.
  intros [H|H]; apply reachable_frame in H as [-> ->].
  - apply Background_checks.
  - apply Part008_checks.
Qed.

Lemma shipped_Background : shipped Background.constructor.
Proof. left. constructor. Qed.

Lemma shipped_Part008 : shipped Part008.constructor.
Proof. right. constructor. Qed.

(** In both tables the digraphs open with one of [s], [t], [d], [c] in
    either case and close with [h] in either case. *)
Lemma shipped_digraph_letters e c :
  shipped e ->
  anyRule isFirst (rules e) c = existsb (N.eqb c) (js "sStTdDcC") /\
  anyRule isSecond (rules e) c = existsb (N.eqb c) (js "hH").
Proof.
  intros He.
  assert (Hin : forall l, existsb (N.eqb c) l = true -> In c l).
  { intros l (c' & Hc' & ->%N.eqb_eq)%existsb_exists. done. }
  assert (Hall : forall (g : codeUnit -> bool) l,
             forallb g l = true -> existsb (N.eqb c) l = true -> g c = true).
  { intros g l Hg Hc. rewrite forallb_forall in Hg. by apply Hg, Hin. }
  assert (Hcov : forall f, (forall re x, inPattern re x = false -> f re x = false) ->
             forall g : codeUnit -> bool,
             forallb (fun x => implb (anyRule f (rules e) x) (g x))
                     (patternChars (rules e)) = true ->
             anyRule f (rules e) c = true -> g c = true).
  { intros f Hf g Hg Hc. destruct (covered (rules e) c) eqn:E.
    - pose proof (covered_forallb _ _ c Hg E) as H. simpl in H.
      by rewrite Hc in H.
    - by rewrite (covered_anyRule f _ _ Hf E) in Hc. }
  split.
  - destruct (existsb (N.eqb c) (js "sStTdDcC")) eqn:E.
    + revert E. apply (Hall (anyRule isFirst (rules e))).
      destruct He as [H|H]; apply reachable_frame in H as [-> _];
        vm_compute; reflexivity.
    + destruct (anyRule isFirst (rules e) c) eqn:F; [|done].
      rewrite <- E. symmetry. revert F.
      apply (Hcov isFirst inPattern_first
               (fun x => existsb (N.eqb x) (js "sStTdDcC"))).
      destruct He as [H|H]; apply reachable_frame in H as [-> _];
        vm_compute; reflexivity.
  - destruct (existsb (N.eqb c) (js "hH")) eqn:E.
    + revert E. apply (Hall (anyRule isSecond (rules e))).
      destruct He as [H|H]; apply reachable_frame in H as [-> _];
        vm_compute; reflexivity.
    + destruct (anyRule isSecond (rules e) c) eqn:F; [|done].
      rewrite <- E. symmetry. revert F.
      apply (Hcov isSecond inPattern_second
               (fun x => existsb (N.eqb x) (js "hH"))).
      destruct He as [H|H]; apply reachable_frame in H as [-> _];
        vm_compute; reflexivity.
Qed.

Lemma shipped_covered e c :
  shipped e -> covered (rules e) c = existsb (N.eqb c) coveredChars.
Proof.
  intros He. destruct (existsb (N.eqb c) coveredChars) eqn:E.
  - apply existsb_exists in E as (c' & Hc' & ->%N.eqb_eq).
    revert c' Hc'. apply forallb_forall.
    destruct He as [H|H]; apply reachable_frame in H as [-> _];
      vm_compute; reflexivity.
  - destruct (covered (rules e) c) eqn:F; [|done].
    rewrite <- E. symmetry.
    enough (Hc : implb (covered (rules e) c) (existsb (N.eqb c) coveredChars) = true)
      by by rewrite F in Hc.
    apply (covered_forallb (rules e)
             (fun x => implb (covered (rules e) x)
                             (existsb (N.eqb x) coveredChars)) c); [|done].
    destruct He as [H|H]; apply reachable_frame in H as [-> _];
      vm_compute; reflexivity.
Qed.

(** In both tables the letter of a digraph differs from what its first
    character alone becomes. *)
Lemma shipped_split_pairs e x y :
  shipped e ->
  anyRule isFirst (rules e) x = true -> anyRule isSecond (rules e) y = true ->
  take 1 (applyRules (rules e) [x; y]) <> applyRules (rules e) [x].
Proof.
  intros He Hx Hy.
  destruct (shipped_digraph_letters e x He) as [Ex _].
  destruct (shipped_digraph_letters e y He) as [_ Ey].
  rewrite Ex in Hx. rewrite Ey in Hy. clear Ex Ey.
  apply existsb_exists in Hx as (x' & Hx & ->%N.eqb_eq).
  apply existsb_exists in Hy as (y' & Hy & ->%N.eqb_eq).
  revert y' Hy. apply List.Forall_forall. revert x' Hx. apply List.Forall_forall.
  destruct He as [H|H]; apply reachable_frame in H as [-> _];
    repeat constructor; vm_compute; discriminate.
Qed.

Lemma splitsDigraph_letters e t c :
  shipped e ->
  splitsDigraph (rules e) t c =
    match stringAt t (c - 1), stringAt t c with
    | Some x, Some y =>
        existsb (N.eqb x) (js "sStTdDcC") && existsb (N.eqb y) (js "hH")
    | _, _ => false
    end.
Proof.
  intros He. unfold splitsDigraph.
  destruct (stringAt t (c - 1)) as [x|]; [|done].
  destruct (stringAt t c) as [y|]; [|done].
  destruct (shipped_digraph_letters e x He) as [-> _].
  destruct (shipped_digraph_letters e y He) as [_ ->]. done.
Qed.

(** The text returned by an enabled shipped engine is what the rule loop
    makes of the whole text. *)
Lemma realTime_text e currentText cursorPosition :
  shipped e -> isEnabled e = true ->
  text (transliterateRealTime e currentText cursorPosition)
  = applyRules (rules e) currentText.
Proof.
  intros He Hon.
  apply shipped_checks, tableChecks_spec in He as (Hi & Ho & Ha & _ & Hs).
  unfold transliterateRealTime. rewrite Hon. cbn [negb text].
  rewrite !transliterate_applyRules.
  by apply (segments_independent (rules e) (separators e)).
Qed.

(** What the segmenter reads of an out-of-range cursor position: a negative
    one is read as 0, one beyond the text as the length of the text. *)
Lemma scans_negative seps t c :
  (c < 0)%Z ->
  scanLeft seps t (c - 1) (Z.to_nat c) = scanLeft seps t (0 - 1) (Z.to_nat 0) /\
  scanRight seps t c (Z.to_nat (jsLength t - c))
  = scanRight seps t 0 (Z.to_nat (jsLength t - 0)) /\
  substring t 0 (Some c) = substring t 0 (Some 0%Z).
Proof.
  intros Hc. split; [|split].
  - by replace (Z.to_nat c) with 0 by lia.
  - unfold jsLength.
    replace c with (- Z.of_nat (Z.to_nat (- c)))%Z at 1 by lia.
    replace (Z.to_nat (Z.of_nat (length t) - c))
      with (Z.to_nat (- c) + length t) by lia.
    rewrite scanRight_negative. f_equal. lia.
  - rewrite !substring_prefix. f_equal. lia.
Qed.

Lemma scans_beyond seps t c :
  (jsLength t < c)%Z ->
  scanLeft seps t (c - 1) (Z.to_nat c)
  = scanLeft seps t (jsLength t - 1) (Z.to_nat (jsLength t)) /\
  scanRight seps t c (Z.to_nat (jsLength t - c))
  = scanRight seps t (jsLength t) (Z.to_nat (jsLength t - jsLength t)) /\
  substring t 0 (Some c) = substring t 0 (Some (jsLength t)).
Proof.
  unfold jsLength. intros Hc. split; [|split].
  - rewrite Nat2Z.id.
    replace (Z.to_nat c) with (Z.to_nat c - length t + length t) by lia.
    replace c with (Z.of_nat (Z.to_nat c - length t + length t)) at 1 by lia.
    apply scanLeft_beyond.
  - replace (Z.to_nat (Z.of_nat (length t) - c)) with 0 by lia.
    by rewrite Z.sub_diag.
  - rewrite !substring_prefix, !take_ge; [done | lia | lia].
Qed.

(** ** The loops on numbers *)

Lemma roundInteger_exact z :
  (- Binary64.maxExact <= z <= Binary64.maxExact)%Z -> Binary64.roundInteger z = z.
Proof.
  intros H. unfold Binary64.roundInteger.
  destruct (Z.abs z <=? Binary64.maxExact)%Z eqn:E; [done|].
  apply Z.leb_gt in E. lia.
Qed.

(** Above 2^53 the numbers are the even integers: 2^53 + 1 goes down to
    2^53, 2^53 + 3 goes up to 2^53 + 4, and so does 2^53 + 5 come down to
    it. *)
Lemma roundInteger_above :
  map Binary64.roundInteger
    [9007199254740993; 9007199254740994; 9007199254740995;
     9007199254740996; 9007199254740997; -9007199254740995]%Z
  = [9007199254740992; 9007199254740994; 9007199254740996;
     9007199254740996; 9007199254740996; -9007199254740996]%Z.
Proof. vm_compute. reflexivity. Qed.

(** On indices up to 2^53 the loops on numbers end and give what the
    scans give. *)
Lemma leftLoop_exact seps t n : forall i fuel,
  (- Binary64.maxExact <= i <= Binary64.maxExact)%Z ->
  n = Z.to_nat (i + 1) -> n < fuel ->
  leftLoop seps t i fuel = Some (scanLeft seps t i n).
Proof.
  unfold Binary64.maxExact.
  induction n as [|n IH]; intros i [|fuel] Hi Hn Hf; try lia; cbn [leftLoop scanLeft].
  - destruct (i >=? 0)%Z eqn:E; [|done]. rewrite Z.geb_leb in E.
    apply Z.leb_le in E. lia.
  - destruct (i >=? 0)%Z eqn:E.
    2:{ rewrite Z.geb_leb in E. apply Z.leb_gt in E. lia. }
    destruct (includes seps (stringAt t i)); [done|].
    rewrite roundInteger_exact by (unfold Binary64.maxExact; lia). apply IH; lia.
Qed.

Lemma rightLoop_exact seps t n : forall i fuel,
  (- Binary64.maxExact <= i)%Z -> (jsLength t <= Binary64.maxExact)%Z ->
  n = Z.to_nat (jsLength t - i) -> n < fuel ->
  rightLoop seps t i fuel = Some (scanRight seps t i n).
Proof.
  unfold Binary64.maxExact.
  induction n as [|n IH]; intros i [|fuel] Hi Hl Hn Hf; try lia;
    cbn [rightLoop scanRight].
  - destruct (i <? jsLength t)%Z eqn:E; [|done]. apply Z.ltb_lt in E. lia.
  - destruct (i <? jsLength t)%Z eqn:E.
    2:{ apply Z.ltb_ge in E. lia. }
    apply Z.ltb_lt in E.
    destruct (includes seps (stringAt t i)); [done|].
    rewrite roundInteger_exact by (unfold Binary64.maxExact; lia). apply IH; lia.
Qed.

(** A loop that has ended gives the same with more fuel. *)
Lemma leftLoop_more seps t fuel : forall i fuel' r,
  leftLoop seps t i fuel = Some r -> fuel <= fuel' ->
  leftLoop seps t i fuel' = Some r.
Proof.
  induction fuel as [|fuel IH]; intros i [|fuel'] r H Hf; try done; try lia.
  cbn [leftLoop] in *. destruct (i >=? 0)%Z; [|done].
  destruct (includes seps (stringAt t i)); [done|]. apply IH; [done | lia].
Qed.

Lemma rightLoop_more seps t fuel : forall i fuel' r,
  rightLoop seps t i fuel = Some r -> fuel <= fuel' ->
  rightLoop seps t i fuel' = Some r.
Proof.
  induction fuel as [|fuel IH]; intros i [|fuel'] r H Hf; try done; try lia.
  cbn [rightLoop] in *. destruct (i <? jsLength t)%Z; [|done].
  destruct (includes seps (stringAt t i)); [done|]. apply IH; [done | lia].
Qed.

(** What a call returns does not depend on the fuel it was given. *)
Lemma realTimeWithin_unique e t c fuel fuel' r r' :
  realTimeWithin fuel e t c = Some r -> realTimeWithin fuel' e t c = Some r' ->
  r = r'.
Proof.
  unfold realTimeWithin. destruct (negb (isEnabled e)); [congruence|].
  destruct (leftLoop (separators e) t _ fuel) as [l|] eqn:El; [|done].
  destruct (rightLoop (separators e) t c fuel) as [x|] eqn:Er; [|done].
  destruct (leftLoop (separators e) t _ fuel') as [l'|] eqn:El'; [|done].
  destruct (rightLoop (separators e) t c fuel') as [x'|] eqn:Er'; [|done].
  assert (l = l' /\ x = x') as [<- <-].
  { destruct (Nat.le_ge_cases fuel fuel') as [H|H].
    - rewrite (leftLoop_more _ _ _ _ _ _ El H) in El'.
      rewrite (rightLoop_more _ _ _ _ _ _ Er H) in Er'. split; congruence.
    - rewrite (leftLoop_more _ _ _ _ _ _ El' H) in El.
      rewrite (rightLoop_more _ _ _ _ _ _ Er' H) in Er. split; congruence. }
  congruence.
Qed.

(** On a safe-integer cursor position, and a text of a length that is one
    (as every string's is), the call on numbers returns, and returns what
    [transliterateRealTime] gives. *)
Lemma realTimeWithin_exact e t c :
  Binary64.isSafeInteger c -> (jsLength t <= Binary64.MAX_SAFE_INTEGER)%Z ->
  realTimeWithin (S (Z.to_nat c + Z.to_nat (jsLength t - c))) e t c
  = Some (transliterateRealTime e t c).
Proof.
  unfold Binary64.isSafeInteger, Binary64.MAX_SAFE_INTEGER. intros Hc Hl.
  unfold realTimeWithin, transliterateRealTime.
  destruct (negb (isEnabled e)); [done|].
  rewrite roundInteger_exact by (unfold Binary64.maxExact; lia).
  rewrite (leftLoop_exact _ _ (Z.to_nat c)) by (unfold Binary64.maxExact; lia).
  rewrite (rightLoop_exact _ _ (Z.to_nat (jsLength t - c)))
    by (unfold Binary64.maxExact; lia).
  rewrite roundInteger_exact; [done|].
  unfold Binary64.maxExact.
  destruct (scanLeft_spec (separators e) t (Z.to_nat c) (c - 1))
    as [-> | (x & H & _)]; lia.
Qed.

(** A loop whose index is not moved by its step, and is not where the loop
    ends, never ends. *)
Lemma leftLoop_stuck seps t i :
  Binary64.roundInteger (i - 1) = i -> (jsLength t <= i)%Z ->
  forall fuel, leftLoop seps t i fuel = None.
Proof.
  intros Hr Hi fuel. induction fuel as [|fuel IH]; [done|]. cbn [leftLoop].
  destruct (i >=? 0)%Z eqn:E.
  2:{ rewrite Z.geb_leb in E. apply Z.leb_gt in E. unfold jsLength in Hi. lia. }
  rewrite stringAt_outside by lia. cbn [includes]. by rewrite Hr.
Qed.

(** From the cursor position 2^53 + 4 the first loop starts at
    [cursorPosition - 1], which is rounded to 2^53 + 4 again, and every
    [i--] leaves it there: with the engine enabled the call does not
    return. *)
Lemma realTimeWithin_stuck e t :
  isEnabled e = true -> (jsLength t <= 9007199254740996)%Z ->
  forall fuel, realTimeWithin fuel e t 9007199254740996 = None.
Proof.
  intros Hon Hl fuel. unfold realTimeWithin. rewrite Hon. cbn [negb].
  assert (H : Binary64.roundInteger (9007199254740996 - 1) = 9007199254740996%Z)
    by (vm_compute; reflexivity).
  rewrite H. by rewrite leftLoop_stuck.
Qed.

(** ** Checks of the embedding on literal inputs *)

Example tier_precedence :
  transliterate Part008.constructor (js "sh") = [Arabic.Sheen] /\
  transliterate Part008.constructor (js "SH") = [Arabic.Sheen].
Proof. split; reflexivity. Qed.

Example case_sensitivity :
  transliterate Part008.constructor (js "S") = [Arabic.Sad] /\
  transliterate Part008.constructor (js "s") = [Arabic.Seen].
Proof. split; reflexivity. Qed.

Example empty_input :
  transliterate Part008.constructor (js "") = js "" /\
  transliterateRealTime Part008.constructor (js "") 0
  = {| text := js ""; newCursorPosition := 0 |}.
Proof. split; reflexivity. Qed.

Example hello_world :
  transliterate Background.constructor (js "Hello World!")
  = [Arabic.Ha; Arabic.Ya; Arabic.Lam; Arabic.Lam; Arabic.Waw; u " ";
     Arabic.Waw; Arabic.Waw; Arabic.Ra; Arabic.Lam; Arabic.Dal; u "!"].
Proof. reflexivity. Qed.

(** ** The claims *)

(** C1. With the engine enabled, for every text and every cursor position
    the text returned by [transliterateRealTime] is the transliteration of the
    whole text: cutting at the separators around the cursor, transliterating
    the three segments apart and concatenating gives the same string. *)
Theorem segmentation_independence e currentText cursorPosition :
  shipped e -> isEnabled e = true ->
  text (transliterateRealTime e currentText cursorPosition)
  = transliterate e currentText.
Proof.
  intros He Hon. rewrite transliterate_applyRules. by apply realTime_text.
Qed.

Lemma segmentation_independence_witness :
  shipped Part008.constructor /\ isEnabled Part008.constructor = true /\
  text (transliterateRealTime Part008.constructor (js "ana sh, 3arab") 5)
  = transliterate Part008.constructor (js "ana sh, 3arab").
Proof.
  split; [exact shipped_Part008|]. split; [reflexivity|].
  apply (segmentation_independence Part008.constructor (js "ana sh, 3arab") 5).
  - exact shipped_Part008.
  - reflexivity.
Defined.

(** C2, as stated, fails with the cursor between the [s] and the [h] of
    ["sh"]: the text becomes Sheen, the prefix ["s"] alone becomes Seen. *)
Lemma cursor_round_trip_counterexample :
  isEnabled Part008.constructor = true /\
  (0 <= 1 <= jsLength (js "sh"))%Z /\
  ~ cursorRoundTrip Part008.constructor (js "sh") 1.
Proof.
  split; [reflexivity|]. split; [vm_compute; split; discriminate|].
  intros (_ & _ & H). vm_compute in H. discriminate H.
Qed.

(** C2, amended. With the engine enabled and the cursor within the text, the
    new cursor position lies within the returned text and is the length of
    the transliteration of the text before the cursor; and the returned text
    starts with the transliteration of the text before the cursor exactly
    when the cursor does not fall between the two letters of a digraph. *)
Theorem cursor_round_trip e currentText cursorPosition :
  shipped e -> isEnabled e = true ->
  (0 <= cursorPosition <= jsLength currentText)%Z ->
  let r := transliterateRealTime e currentText cursorPosition in
  let preview := transliterate e (substring currentText 0 (Some cursorPosition)) in
  (0 <= newCursorPosition r <= jsLength (text r))%Z /\
  newCursorPosition r = jsLength preview /\
  (splitsDigraph (rules e) currentText cursorPosition = false <->
   take (Z.to_nat (newCursorPosition r)) (text r) = preview).
Proof.
  intros He Hon Hc r preview.
  assert (Htext : text r = applyRules (rules e) currentText).
  { by apply realTime_text. }
  assert (Hcur : newCursorPosition r = jsLength preview).
  { unfold r, transliterateRealTime. by rewrite Hon. }
  pose proof (shipped_split_pairs e) as Hpairs.
  pose proof He as He'.
  apply shipped_checks, tableChecks_spec in He as (Hi & Ho & Ha & _ & Hs).
  assert (Hpre : preview = applyRules (rules e) (take (Z.to_nat cursorPosition) currentText)).
  { unfold preview. by rewrite transliterate_applyRules, substring_prefix. }
  rewrite Hcur, Htext, Hpre. unfold jsLength in *.
  split; [split; [lia|] | split; [done|]].
  - apply inj_le.
    rewrite <- (take_drop (Z.to_nat cursorPosition) currentText) at 2.
    by apply prefix_length.
  - rewrite Nat2Z.id. split.
    + intros Hsplit. by apply (prefix_exact (rules e)).
    + intros Heq. unfold splitsDigraph.
      destruct (stringAt currentText (cursorPosition - 1)) as [x|] eqn:Ex; [|done].
      destruct (stringAt currentText cursorPosition) as [y|] eqn:Ey; [|done].
      destruct (anyRule isFirst (rules e) x) eqn:E1; [|done].
      destruct (anyRule isSecond (rules e) y) eqn:E2; [|done].
      exfalso. apply (Hpairs x y He' E1 E2).
      by apply (prefix_split (rules e) Hi Ho Ha currentText cursorPosition).
Qed.

Lemma cursor_round_trip_witness :
  shipped Part008.constructor /\ isEnabled Part008.constructor = true /\
  (0 <= 4 <= jsLength (js "ana sh"))%Z /\
  cursorRoundTrip Part008.constructor (js "ana sh") 4.
Proof.
  assert (Hc : (0 <= 4 <= jsLength (js "ana sh"))%Z) by (vm_compute; split; discriminate).
  split; [exact shipped_Part008|]. split; [reflexivity|]. split; [exact Hc|].
  destruct (cursor_round_trip Part008.constructor (js "ana sh") 4
              shipped_Part008 eq_refl Hc) as (H1 & H2 & H3).
  split; [exact H1|]. split; [exact H2|]. apply H3. reflexivity.
Defined.

(** C3. With the enabled flag false, [transliterateRealTime(t, c)] returns
    [{ text: t, newCursorPosition: c }] for every string and every integer:
    text and cursor position are left as they are. *)
Theorem disabled_identity e t c :
  isEnabled e = false ->
  transliterateRealTime e t c = {| text := t; newCursorPosition := c |}.
Proof. intros Hoff. unfold transliterateRealTime. by rewrite Hoff. Qed.

Lemma disabled_identity_witness :
  isEnabled (setEnabled Part008.constructor false) = false /\
  transliterateRealTime (setEnabled Part008.constructor false) (js "sh") (-7)
  = {| text := js "sh"; newCursorPosition := (-7) |}.
Proof.
  split; [reflexivity|].
  apply (disabled_identity (setEnabled Part008.constructor false) (js "sh") (-7)).
  reflexivity.
Defined.

(** C4, as stated, fails: the digraph row is case-insensitive and comes
    first, so on ["Sham"] it consumes [Sh]; the result neither starts with
    Sad nor maps [h] on its own. *)
Lemma Sham_counterexample :
  head (transliterate Part008.constructor (js "Sham")) <> Some Arabic.Sad /\
  transliterate Part008.constructor (js "Sham")
    <> [Arabic.Sad; Arabic.Ha; Arabic.Alif; Arabic.Meem] /\
  head (transliterate Background.constructor (js "Sham")) <> Some Arabic.Sad /\
  transliterate Background.constructor (js "Sham")
    <> [Arabic.Sad; Arabic.Ha; Arabic.Alif; Arabic.Meem].
Proof. vm_compute. repeat split; discriminate. Qed.

(** C4, amended. On ["Sham"] the order of the rows resolves the ambiguity so
    that [Sh] is consumed by the case-insensitive digraph row [sh]: the result
    is Sheen followed by the letters of [a] and [m], each mapped on its own;
    the row of the upper-case [S] fires where no [h] follows, as on ["Sam"]. *)
Theorem Sham_digraph_first e :
  shipped e ->
  transliterate e (js "Sham") = [Arabic.Sheen; Arabic.Alif; Arabic.Meem] /\
  transliterate e (js "Sam") = [Arabic.Sad; Arabic.Alif; Arabic.Meem].
Proof.
  intros He. rewrite !transliterate_applyRules.
  destruct He as [H|H]; apply reachable_frame in H as [-> _];
    vm_compute; done.
Qed.

Lemma Sham_digraph_first_witness :
  shipped Background.constructor /\
  transliterate Background.constructor (js "Sham")
  = [Arabic.Sheen; Arabic.Alif; Arabic.Meem] /\
  transliterate Background.constructor (js "Sam")
  = [Arabic.Sad; Arabic.Alif; Arabic.Meem].
Proof.
  split; [exact shipped_Background|].
  exact (Sham_digraph_first Background.constructor shipped_Background).
Defined.

(** C5. In the table of [part_008] the rows of the upper-case [T], [O] and
    [Y] stand in the case-sensitive group, after the numerals and before the
    base consonants, and map to Ta, Waw with hamza and Ya with hamza; the row
    of the lower-case [t] stands among the base consonants and maps to Taa
    marbuta.  So ["T"], ["O"], ["Y"] and ["t"] transliterate to these
    letters. *)
Theorem upper_TOY_lower_t e :
  reachable Part008.constructor e ->
  rules e !! 14 = Some (row1 "T" false Arabic.Ta) /\
  rules e !! 15 = Some (row1 "O" false Arabic.WawHamza) /\
  rules e !! 16 = Some (row1 "Y" false Arabic.YaHamza) /\
  rules e !! 19 = Some (row1 "t" false Arabic.TaaMarbuta) /\
  transliterate e (js "T") = [Arabic.Ta] /\
  transliterate e (js "O") = [Arabic.WawHamza] /\
  transliterate e (js "Y") = [Arabic.YaHamza] /\
  transliterate e (js "t") = [Arabic.TaaMarbuta].
Proof.
  intros H. rewrite !transliterate_applyRules.
  apply reachable_frame in H as [-> _]. vm_compute. done.
Qed.

Lemma upper_TOY_lower_t_witness :
  reachable Part008.constructor (setEnabled Part008.constructor false) /\
  transliterate (setEnabled Part008.constructor false) (js "t")
  = [Arabic.TaaMarbuta].
Proof.
  assert (H : reachable Part008.constructor (setEnabled Part008.constructor false))
    by (apply reach_setEnabled, reach_new).
  split; [exact H|].
  exact (proj2 (proj2 (proj2 (proj2 (proj2 (proj2 (proj2
    (upper_TOY_lower_t (setEnabled Part008.constructor false) H)))))))).
Defined.

(** The older table of [src/background] has no rows for [T], [O] and [Y] and
    a case-insensitive [t]: there [O], [Y] and [t] give Waw, Ya and Ta. *)
Lemma Background_TOY_t :
  map (fun s => transliterate Background.constructor (js s)) ["T"; "O"; "Y"; "t"]%string
  = [[Arabic.Ta]; [Arabic.Waw]; [Arabic.Ya]; [Arabic.Ta]].
Proof. reflexivity. Qed.

(** C6, as stated, fails: the expected string of the specification has
    eight letters with two Ya, the transliteration has nine with three. *)
Lemma arabiyya_counterexample :
  transliterate Part008.constructor (js "3arabiyya")
    <> [Arabic.Ain; Arabic.Alif; Arabic.Ra; Arabic.Alif; Arabic.Ba;
        Arabic.Ya; Arabic.Ya; Arabic.Alif] /\
  transliterate Background.constructor (js "3arabiyya")
    <> [Arabic.Ain; Arabic.Alif; Arabic.Ra; Arabic.Alif; Arabic.Ba;
        Arabic.Ya; Arabic.Ya; Arabic.Alif].
Proof. vm_compute. split; discriminate. Qed.

(** C6, amended. ["3arabiyya"] has nine characters, none of them part of a
    digraph; each is mapped on its own, [i], [y] and [y] to Ya each, and the
    result is Ain, Alif, Ra, Alif, Ba, Ya, Ya, Ya, Alif. *)
Theorem arabiyya_exact e :
  shipped e ->
  transliterate e (js "3arabiyya")
  = [Arabic.Ain; Arabic.Alif; Arabic.Ra; Arabic.Alif; Arabic.Ba;
     Arabic.Ya; Arabic.Ya; Arabic.Ya; Arabic.Alif].
Proof.
  intros He. rewrite transliterate_applyRules.
  destruct He as [H|H]; apply reachable_frame in H as [-> _];
    vm_compute; done.
Qed.

Lemma arabiyya_exact_witness :
  shipped Part008.constructor /\
  transliterate Part008.constructor (js "3arabiyya")
  = [Arabic.Ain; Arabic.Alif; Arabic.Ra; Arabic.Alif; Arabic.Ba;
     Arabic.Ya; Arabic.Ya; Arabic.Ya; Arabic.Alif].
Proof.
  split; [exact shipped_Part008|].
  exact (arabiyya_exact Part008.constructor shipped_Part008).
Defined.

(** What the embedding on exact integers gives for a cursor position
    outside the text: with the engine enabled a negative one gives the
    result of position 0, and one beyond the text the result of the position
    at its end. *)
Lemma out_of_range_clamped e t c :
  isEnabled e = true ->
  ((c < 0)%Z -> transliterateRealTime e t c = transliterateRealTime e t 0) /\
  ((jsLength t < c)%Z ->
     transliterateRealTime e t c = transliterateRealTime e t (jsLength t)).
Proof.
  intros Hon. unfold transliterateRealTime. rewrite Hon. cbn [negb].
  split; intros Hc.
  - destruct (scans_negative (separators e) t c Hc) as (-> & -> & ->). done.
  - destruct (scans_beyond (separators e) t c Hc) as (-> & -> & ->). done.
Qed.

(** C7, as stated, fails: [transliterateRealTime] is not total on every
    integer cursor position.  The position 2^53 + 4 is a number; with the
    engine enabled the first loop starts at [cursorPosition - 1], which
    rounds to 2^53 + 4, the test [i >= 0] holds, [currentText[i]] is
    [undefined], and [i--] leaves [i] where it is: the call never returns,
    whatever number of steps it is given. *)
Lemma huge_cursor_counterexample :
  Binary64.roundInteger 9007199254740996 = 9007199254740996%Z /\
  isEnabled Part008.constructor = true /\
  isEnabled Background.constructor = true /\
  ~ (exists fuel result,
       realTimeWithin fuel Part008.constructor (js "a") 9007199254740996
       = Some result) /\
  ~ (exists fuel result,
       realTimeWithin fuel Background.constructor (js "a") 9007199254740996
       = Some result).
Proof.
  split; [vm_compute; reflexivity|]. do 2 (split; [reflexivity|]).
  split; intros (fuel & result & H);
    rewrite realTimeWithin_stuck in H; try done; by vm_compute.
Qed.

(** C7, amended. For every string (its length is a safe integer) and every
    safe-integer cursor position, in the text or out of it,
    [transliterateRealTime] returns: both loops end, no index it reads and
    no substring it takes can fail, an index outside the text reads as
    [undefined]; what it returns is one result, that of the embedding on
    exact integers.  With the engine enabled a negative cursor position
    gives the result of position 0, and a position beyond the text gives the
    result of the position at its end. *)
Theorem safe_cursor_total e t c :
  Binary64.isSafeInteger c -> (jsLength t <= Binary64.MAX_SAFE_INTEGER)%Z ->
  exists result,
    (exists fuel, realTimeWithin fuel e t c = Some result) /\
    (forall fuel result', realTimeWithin fuel e t c = Some result' ->
                          result' = result) /\
    result = transliterateRealTime e t c /\
    (isEnabled e = true -> (c < 0)%Z ->
     exists fuel, realTimeWithin fuel e t 0 = Some result) /\
    (isEnabled e = true -> (jsLength t < c)%Z ->
     exists fuel, realTimeWithin fuel e t (jsLength t) = Some result).
Proof.
  intros Hc Hl. exists (transliterateRealTime e t c).
  pose proof (realTimeWithin_exact e t c Hc Hl) as H.
  split; [eauto|]. split.
  { intros fuel r Hr. exact (realTimeWithin_unique _ _ _ _ _ _ _ Hr H). }
  split; [done|].
  unfold Binary64.isSafeInteger, Binary64.MAX_SAFE_INTEGER in *.
  split; intros Hon Hout.
  - rewrite (proj1 (out_of_range_clamped e t c Hon) Hout).
    eexists. apply realTimeWithin_exact; [|done].
    unfold Binary64.isSafeInteger, Binary64.MAX_SAFE_INTEGER. lia.
  - rewrite (proj2 (out_of_range_clamped e t c Hon) Hout).
    eexists. apply realTimeWithin_exact; [|done].
    unfold Binary64.isSafeInteger, Binary64.MAX_SAFE_INTEGER, jsLength in *. lia.
Qed.

Lemma safe_cursor_total_witness :
  Binary64.isSafeInteger (-3) /\ Binary64.isSafeInteger 30 /\
  (jsLength (js "ana sh") <= Binary64.MAX_SAFE_INTEGER)%Z /\
  isEnabled Part008.constructor = true /\
  (exists fuel,
     realTimeWithin fuel Part008.constructor (js "ana sh") 0
     = Some (transliterateRealTime Part008.constructor (js "ana sh") (-3))) /\
  (exists fuel,
     realTimeWithin fuel Part008.constructor (js "ana sh") (jsLength (js "ana sh"))
     = Some (transliterateRealTime Part008.constructor (js "ana sh") 30)).
Proof.
  assert (Hneg : Binary64.isSafeInteger (-3))
    by (unfold Binary64.isSafeInteger, Binary64.MAX_SAFE_INTEGER; lia).
  assert (Hbig : Binary64.isSafeInteger 30)
    by (unfold Binary64.isSafeInteger, Binary64.MAX_SAFE_INTEGER; lia).
  assert (Hl : (jsLength (js "ana sh") <= Binary64.MAX_SAFE_INTEGER)%Z)
    by (vm_compute; discriminate).
  do 3 (split; [assumption|]). split; [reflexivity|].
  destruct (safe_cursor_total Part008.constructor (js "ana sh") (-3) Hneg Hl)
    as (r & _ & _ & -> & H & _).
  destruct (safe_cursor_total Part008.constructor (js "ana sh") 30 Hbig Hl)
    as (r' & _ & _ & -> & _ & H').
  split; [apply H | apply H']; solve [reflexivity | vm_compute; reflexivity].
Defined.

(** C8. A string none of whose characters matches a character of any
    pattern (under the case flag of that pattern) is returned by
    [transliterate] as it is, every character at its place.  For the shipped tables this covers the digits 0, 1 and 4, the
    separators and every character outside ASCII, Arabic letters among them. *)
Theorem uncovered_unchanged e s :
  (Forall (fun c => covered (rules e) c = false) s -> transliterate e s = s) /\
  (shipped e ->
   Forall (fun c => In c (js "014") \/ In c theSeparators \/ (128 <= c)%N) s ->
   transliterate e s = s).
Proof.
  split.
  - intros H. rewrite transliterate_applyRules. by apply applyRules_uncovered.
  - intros He H. rewrite transliterate_applyRules. apply applyRules_uncovered.
    eapply Forall_impl; [exact H|]. intros c Hc. cbv beta in Hc.
    rewrite (shipped_covered e c He).
    destruct (existsb (N.eqb c) coveredChars) eqn:E; [|done].
    apply existsb_exists in E as (c' & Hc' & ->%N.eqb_eq).
    assert (Hchk : forallb (fun x =>
              negb (existsb (N.eqb x) (js "014" ++ theSeparators))
              && (x <? 128)%N) coveredChars = true) by (vm_compute; reflexivity).
    rewrite forallb_forall in Hchk.
    apply Hchk, andb_true_iff in Hc' as [H1%negb_true_iff H2%N.ltb_lt].
    assert (Hex : In c' (js "014" ++ theSeparators) -> False).
    { intros Hin. rewrite <- not_true_iff_false in H1. apply H1.
      apply existsb_exists. exists c'. split; [done | apply N.eqb_refl]. }
    exfalso. destruct Hc as [Hc | [Hc | Hc]].
    + apply Hex, in_or_app. left. exact Hc.
    + apply Hex, in_or_app. right. exact Hc.
    + lia.
Qed.

Lemma uncovered_unchanged_witness :
  transliterate Part008.constructor (js "0 (1) 4!" ++ [Arabic.Sheen; Arabic.Ya])
  = js "0 (1) 4!" ++ [Arabic.Sheen; Arabic.Ya].
Proof.
  assert (H : Forall (fun c => covered (rules Part008.constructor) c = false)
                (js "0 (1) 4!" ++ [Arabic.Sheen; Arabic.Ya]))
    by (vm_compute; repeat constructor).
  exact (proj1 (uncovered_unchanged Part008.constructor
                  (js "0 (1) 4!" ++ [Arabic.Sheen; Arabic.Ya])) H).
Defined.

(** C9. The enabled flag plays no part in [transliterate]: the result is the
    same with the flag true and false; and [setEnabled(b)] sets the flag to
    [b] and leaves the table, the separators and the layout as they are. *)
Theorem enabled_flag_frame e b s :
  transliterate (setEnabled e b) s = transliterate e s /\
  (forall R layout seps,
     transliterate (mkEngine R true layout seps) s
     = transliterate (mkEngine R false layout seps) s) /\
  isEnabled (setEnabled e b) = b /\
  rules (setEnabled e b) = rules e /\
  separators (setEnabled e b) = separators e /\
  keyboardLayout (setEnabled e b) = keyboardLayout e.
Proof. repeat split. Qed.

(** C10. [transliterate] is idempotent: a second pass changes nothing.  The
    letters a pass writes are read by no row, no character with a
    one-character row survives a pass, and every digraph closes with such a
    character, so the second pass finds no match. *)
Theorem transliterate_idempotent e s :
  shipped e -> transliterate e (transliterate e s) = transliterate e s.
Proof.
  intros He. rewrite !transliterate_applyRules.
  apply shipped_checks, tableChecks_spec in He as (Hi & Ho & _ & Hs & _).
  by apply applyRules_idempotent.
Qed.

Lemma transliterate_idempotent_witness :
  shipped Part008.constructor /\
  transliterate Part008.constructor
    (transliterate Part008.constructor (js "Sham chc, 3arabiyya"))
  = transliterate Part008.constructor (js "Sham chc, 3arabiyya").
Proof.
  split; [exact shipped_Part008|].
  exact (transliterate_idempotent Part008.constructor
           (js "Sham chc, 3arabiyya") shipped_Part008).
Defined.

(** ** Further properties of the engine *)

(** In both tables a digraph becomes one letter. *)
Lemma shipped_pair_one e x y :
  shipped e ->
  anyRule isFirst (rules e) x = true -> anyRule isSecond (rules e) y = true ->
  length (applyRules (rules e) [x; y]) = 1.
Proof.
  intros He Hx Hy.
  destruct (shipped_digraph_letters e x He) as [Ex _].
  destruct (shipped_digraph_letters e y He) as [_ Ey].
  rewrite Ex in Hx. rewrite Ey in Hy. clear Ex Ey.
  apply existsb_exists in Hx as (x' & Hx & ->%N.eqb_eq).
  apply existsb_exists in Hy as (y' & Hy & ->%N.eqb_eq).
  revert y' Hy. apply List.Forall_forall. revert x' Hx. apply List.Forall_forall.
  destruct He as [H|H]; apply reachable_frame in H as [-> _];
    repeat constructor.
Qed.

Lemma shipped_single e c :
  shipped e -> anyRule isSingle (rules e) c = existsb (N.eqb c) singleChars.
Proof.
  intros He. destruct (existsb (N.eqb c) singleChars) eqn:E.
  - apply existsb_exists in E as (c' & Hc' & ->%N.eqb_eq).
    revert c' Hc'. apply forallb_forall.
    destruct He as [H|H]; apply reachable_frame in H as [-> _];
      vm_compute; reflexivity.
  - destruct (anyRule isSingle (rules e) c) eqn:F; [|done].
    rewrite <- E. symmetry.
    assert (Hcov : covered (rules e) c = true).
    { destruct (covered (rules e) c) eqn:G; [done|].
      by rewrite (uncovered_single _ _ G) in F. }
    enough (Hc : implb (anyRule isSingle (rules e) c)
                   (existsb (N.eqb c) singleChars) = true)
      by by rewrite F in Hc.
    apply (covered_forallb (rules e)
             (fun x => implb (anyRule isSingle (rules e) x)
                             (existsb (N.eqb x) singleChars)) c); [|done].
    destruct He as [H|H]; apply reachable_frame in H as [-> _];
      vm_compute; reflexivity.
Qed.

Section Counting.
Variable T : list Rule.
Hypothesis T_inert : inertTable T = true.
Hypothesis T_oneLetter : oneLetter T = true.
Hypothesis T_apart : digraphsApart T = true.
Hypothesis T_pairs : forall x y,
  anyRule isFirst T x = true -> anyRule isSecond T y = true ->
  length (applyRules T [x; y]) = 1.

Lemma applyRules_one x : length (applyRules T [x]) = 1.
Proof.
  pose proof (applyRules_length_sub T T_oneLetter T (reflexivity T) [x]).
  assert (applyRules T [x] <> [])
    by by apply (applyRules_nonempty_sub T T_oneLetter T).
  destruct (applyRules T [x]); [done|]. simpl in *. lia.
Qed.

(** A first character that does not open a digraph with its successor is
    transliterated on its own. *)
Lemma applyRules_head x s :
  (forall y, head s = Some y ->
     anyRule isFirst T x && anyRule isSecond T y = false) ->
  applyRules T (x :: s) = applyRules T [x] ++ applyRules T s.
Proof.
  intros H. change (x :: s) with ([x] ++ s).
  apply (applyRules_app T T_inert T_oneLetter).
  intros x' y Hx' Hy. injection Hx' as <-. by apply H.
Qed.

Lemma not_first_of_second y :
  anyRule isSecond T y = true -> anyRule isFirst T y = false.
Proof.
  intros Hy. pose proof (digraphsApart_spec T y T_apart) as H.
  by rewrite Hy, andb_true_r in H.
Qed.

Lemma applyRules_length_count s :
  length (applyRules T s) + digraphCount T s = length s.
Proof.
  induction s as [|x s IH]; [by rewrite applyRules_nil|].
  destruct s as [|y s].
  - rewrite applyRules_one. done.
  - cbn [digraphCount] in *. cbn [length] in *.
    destruct (anyRule isFirst T x && anyRule isSecond T y) eqn:E.
    + apply andb_true_iff in E as [E1 E2].
      pose proof (not_first_of_second y E2) as Hy.
      assert (H1 : applyRules T (x :: y :: s)
                   = applyRules T [x; y] ++ applyRules T s).
      { change (x :: y :: s) with ([x; y] ++ s).
        apply (applyRules_app T T_inert T_oneLetter).
        intros x' y' Hx' _. injection Hx' as <-. by rewrite Hy. }
      assert (H2 : applyRules T (y :: s) = applyRules T [y] ++ applyRules T s).
      { apply applyRules_head. intros y' _. by rewrite Hy. }
      rewrite H2, length_app, applyRules_one in IH.
      rewrite H1, length_app, (T_pairs x y E1 E2). lia.
    + rewrite applyRules_head, length_app, applyRules_one.
      * cbn [length] in IH. lia.
      * intros y' [= <-]. done.
Qed.

Lemma digraphCount_half s : 2 * digraphCount T s <= length s.
Proof.
  induction s as [| x | x y s IH1 IH2] using scan_ind; [done | simpl; lia |].
  cbn [digraphCount length] in *.
  destruct (anyRule isFirst T x && anyRule isSecond T y) eqn:E; [|lia].
  apply andb_true_iff in E as [_ E2].
  rewrite (not_first_of_second y E2) in *. simpl in *.
  destruct s; simpl in *; lia.
Qed.
End Counting.

Lemma existsb_In (c : codeUnit) (l : jsString) :
  existsb (N.eqb c) l = true <-> In c l.
Proof.
  rewrite existsb_exists. split.
  - by intros (c' & Hc' & ->%N.eqb_eq).
  - intros H. exists c. split; [done | apply N.eqb_refl].
Qed.

Lemma shipped_noSplit e a b :
  shipped e -> ~ cutsDigraph a b -> noSplit (rules e) a b.
Proof.
  intros He H x y Hx Hy.
  destruct (shipped_digraph_letters e x He) as [-> _].
  destruct (shipped_digraph_letters e y He) as [_ ->].
  destruct (existsb (N.eqb x) (js "sStTdDcC")) eqn:Ex; [|done].
  destruct (existsb (N.eqb y) (js "hH")) eqn:Ey; [|done].
  exfalso. apply H. exists x, y. by rewrite <- !existsb_In.
Qed.

(** X1. [transliterate] distributes over every cut of its input that does
    not separate the two letters of a digraph. *)
Theorem transliterate_cut e a b :
  shipped e -> ~ cutsDigraph a b ->
  transliterate e (a ++ b) = transliterate e a ++ transliterate e b.
Proof.
  intros He H. rewrite !transliterate_applyRules.
  pose proof (shipped_noSplit e a b He H) as Hn.
  apply shipped_checks, tableChecks_spec in He as (Hi & Ho & _).
  by apply applyRules_app.
Qed.

Lemma transliterate_cut_witness :
  transliterate Part008.constructor (js "sha" ++ js "th")
  = transliterate Part008.constructor (js "sha")
    ++ transliterate Part008.constructor (js "th").
Proof.
  apply (transliterate_cut Part008.constructor (js "sha") (js "th")).
  - exact shipped_Part008.
  - intros (x & y & Hx & Hy & Hx' & Hy'). injection Hx as <-. injection Hy as <-.
    vm_compute in Hx'. repeat destruct Hx' as [Hx'|Hx']; done.
Defined.

(** X2. A character the tables do not read (a separator, a digit 0, 1 or 4,
    an Arabic letter, ...) splits the input into parts that are
    transliterated independently, and stays where it is. *)
Theorem transliterate_words e a c b :
  shipped e -> ~ In c coveredChars ->
  transliterate e (a ++ c :: b) = transliterate e a ++ c :: transliterate e b.
Proof.
  intros He Hc. rewrite !transliterate_applyRules.
  assert (Hcov : covered (rules e) c = false).
  { rewrite (shipped_covered e c He).
    destruct (existsb (N.eqb c) coveredChars) eqn:E; [|done].
    by apply existsb_In in E. }
  apply shipped_checks, tableChecks_spec in He as (Hi & Ho & _).
  rewrite (applyRules_app _ Hi Ho).
  - f_equal. change (c :: b) with ([c] ++ b).
    rewrite (applyRules_app _ Hi Ho).
    + rewrite (applyRules_uncovered _ [c]); [done|]. by repeat constructor.
    + intros x y [= <-] _. by rewrite (uncovered_first _ _ Hcov).
  - intros x y _ [= <-]. by rewrite (uncovered_second _ _ Hcov), andb_false_r.
Qed.

Lemma transliterate_words_witness :
  transliterate Background.constructor (js "mesh" ++ u " " :: js "kida")
  = transliterate Background.constructor (js "mesh")
    ++ u " " :: transliterate Background.constructor (js "kida").
Proof.
  apply (transliterate_words Background.constructor (js "mesh") (u " ") (js "kida")).
  - exact shipped_Background.
  - vm_compute. intros H. repeat destruct H as [H|H]; done.
Defined.

(** X3. The output of [transliterate] is shorter than its input by the
    number of digraphs in the input, every other character giving one
    character; so it is never longer than the input and never shorter than
    half of it. *)
Theorem transliterate_length e s :
  shipped e ->
  length (transliterate e s) + digraphCount (rules e) s = length s /\
  length (transliterate e s) <= length s <= 2 * length (transliterate e s).
Proof.
  intros He. rewrite transliterate_applyRules.
  pose proof (fun x y => shipped_pair_one e x y He) as Hp.
  apply shipped_checks, tableChecks_spec in He as (Hi & Ho & Ha & _).
  pose proof (applyRules_length_count (rules e) Hi Ho Ha Hp s) as H1.
  pose proof (digraphCount_half (rules e) Ha s) as H2.
  lia.
Qed.

Lemma transliterate_length_witness :
  length (transliterate Part008.constructor (js "shath"))
  + digraphCount (rules Part008.constructor) (js "shath") = length (js "shath").
Proof.
  exact (proj1 (transliterate_length Part008.constructor (js "shath")
                  shipped_Part008)).
Defined.

(** X4. Nothing that has a one-character row survives [transliterate]: the
    output holds none of the digits 2, 3, 5, 6, 7, 8, 9 and no ASCII letter
    other than c, g, q, v and x. *)
Theorem transliterate_clears e s :
  shipped e -> Forall (fun c => ~ In c singleChars) (transliterate e s).
Proof.
  intros He. rewrite transliterate_applyRules.
  pose proof (fun c => shipped_single e c He) as Hs.
  apply shipped_checks, tableChecks_spec in He as (Hi & Ho & _).
  eapply Forall_impl;
    [exact (applyRules_clears_sub _ Hi (rules e) (reflexivity _) s)|].
  intros c Hc Hin. cbv beta in Hc. apply existsb_In in Hin.
  rewrite (Hs c) in Hc. congruence.
Qed.

Lemma transliterate_clears_witness :
  Forall (fun c => ~ In c singleChars)
         (transliterate Part008.constructor (js "Hello, World! 2024")).
Proof.
  exact (transliterate_clears Part008.constructor (js "Hello, World! 2024")
           shipped_Part008).
Defined.

Lemma disabled_flag_identity e t c :
  isEnabled e = false ->
  transliterateRealTime e t c = {| text := t; newCursorPosition := c |}.
Proof. intros Hoff. unfold transliterateRealTime. by rewrite Hoff. Qed.

(** The cursor returned by an enabled engine, for every integer position. *)
Lemma realTime_cursor e t c :
  isEnabled e = true ->
  newCursorPosition (transliterateRealTime e t c)
  = jsLength (applyRules (rules e) (take (Z.to_nat c) t)).
Proof.
  intros Hon. unfold transliterateRealTime. rewrite Hon. cbn [negb newCursorPosition].
  by rewrite transliterate_applyRules, substring_prefix.
Qed.

(** X5. The new cursor position grows with the cursor position: a cursor
    further right in the typed text is never mapped further left. *)
Theorem cursor_monotone e t c1 c2 :
  shipped e -> isEnabled e = true -> (c1 <= c2)%Z ->
  (newCursorPosition (transliterateRealTime e t c1)
   <= newCursorPosition (transliterateRealTime e t c2))%Z.
Proof.
  intros He Hon Hc. rewrite !realTime_cursor by done.
  apply shipped_checks, tableChecks_spec in He as (Hi & Ho & Ha & _).
  unfold jsLength. apply inj_le.
  rewrite <- (take_drop (Z.to_nat c1) (take (Z.to_nat c2) t)) at 1.
  rewrite take_take, Nat.min_l by lia.
  by apply prefix_length.
Qed.

Lemma cursor_monotone_witness :
  (newCursorPosition (transliterateRealTime Part008.constructor (js "shams") 1)
   <= newCursorPosition (transliterateRealTime Part008.constructor (js "shams") 2))%Z.
Proof.
  apply (cursor_monotone Part008.constructor (js "shams") 1 2).
  - exact shipped_Part008.
  - reflexivity.
  - vm_compute. discriminate.
Defined.

(** X6. For a cursor within the text the new cursor position is the cursor
    position less the number of digraphs that lie before the cursor. *)
Theorem cursor_shift e t c :
  shipped e -> isEnabled e = true -> (0 <= c <= jsLength t)%Z ->
  newCursorPosition (transliterateRealTime e t c)
  = (c - Z.of_nat (digraphCount (rules e) (substring t 0 (Some c))))%Z.
Proof.
  intros He Hon Hc. rewrite realTime_cursor, substring_prefix by done.
  pose proof (fun x y => shipped_pair_one e x y He) as Hp.
  apply shipped_checks, tableChecks_spec in He as (Hi & Ho & Ha & _).
  pose proof (applyRules_length_count (rules e) Hi Ho Ha Hp
                (take (Z.to_nat c) t)) as H.
  unfold jsLength in *. rewrite length_take in H. lia.
Qed.

Lemma cursor_shift_witness :
  newCursorPosition (transliterateRealTime Part008.constructor (js "shath") 4)
  = (4 - Z.of_nat (digraphCount (rules Part008.constructor)
                     (substring (js "shath") 0 (Some 4%Z))))%Z.
Proof.
  apply (cursor_shift Part008.constructor (js "shath") 4).
  - exact shipped_Part008.
  - reflexivity.
  - vm_compute. split; discriminate.
Defined.

(** The cursor of an enabled engine lies within the text it returns. *)
Lemma realTime_cursor_bound e t c :
  shipped e -> isEnabled e = true ->
  let r := transliterateRealTime e t c in
  (0 <= newCursorPosition r <= jsLength (text r))%Z /\
  Z.min (newCursorPosition r) (jsLength (text r)) = newCursorPosition r.
Proof.
  intros He Hon r.
  assert (H : (0 <= newCursorPosition r <= jsLength (text r))%Z); [|split; [done | lia]].
  unfold r. rewrite realTime_cursor, realTime_text by done.
  apply shipped_checks, tableChecks_spec in He as (Hi & Ho & Ha & _).
  unfold jsLength. split; [lia|]. apply inj_le.
  rewrite <- (take_drop (Z.to_nat c) t) at 2. by apply prefix_length.
Qed.

(** X7. For every integer cursor position, in range or not, the new cursor
    position of an enabled engine lies within the returned text; the
    [Math.min] with the length of the text that the content scripts apply to
    it changes nothing. *)
Theorem cursor_within_text e t c :
  shipped e -> isEnabled e = true ->
  let r := transliterateRealTime e t c in
  (0 <= newCursorPosition r <= jsLength (text r))%Z /\
  Z.min (newCursorPosition r) (jsLength (text r)) = newCursorPosition r.
Proof.
  intros He Hon r.
  assert (Hcut : t = take (Z.to_nat c) t ++ drop (Z.to_nat c) t)
    by by rewrite take_drop.
  assert (H : (0 <= newCursorPosition r <= jsLength (text r))%Z); [|split; [done | lia]].
  unfold r. rewrite realTime_cursor, realTime_text by done.
  apply shipped_checks, tableChecks_spec in He as (Hi & Ho & Ha & _).
  unfold jsLength. split; [lia|]. apply inj_le.
  rewrite Hcut at 2. by apply prefix_length.
Qed.

Lemma cursor_within_text_witness :
  let r := transliterateRealTime Part008.constructor (js "shams") 99 in
  (0 <= newCursorPosition r <= jsLength (text r))%Z /\
  Z.min (newCursorPosition r) (jsLength (text r)) = newCursorPosition r.
Proof.
  apply (cursor_within_text Part008.constructor (js "shams") 99).
  - exact shipped_Part008.
  - reflexivity.
Defined.

(** The loop leaves a string on which it finds nothing more. *)
Lemma applyRules_clean e s :
  shipped e ->
  Forall (fun x => anyRule isSingle (rules e) x = false /\
                   anyRule isSecond (rules e) x = false)
         (applyRules (rules e) s).
Proof.
  intros He.
  apply shipped_checks, tableChecks_spec in He as (Hi & Ho & _ & Hs & _).
  eapply Forall_impl;
    [exact (applyRules_clears_sub _ Hi (rules e) (reflexivity _) s)|].
  intros x Hx. cbv beta in Hx. split; [done|]. by apply secondsSingle_spec.
Qed.

(** X8. A result of [transliterateRealTime] is a fixed point: sent through
    the engine again, text and cursor come back as they are. *)
Theorem realTime_fixed_point e t c :
  shipped e ->
  let r := transliterateRealTime e t c in
  transliterateRealTime e (text r) (newCursorPosition r) = r.
Proof.
  intros He r. destruct (isEnabled e) eqn:Hon.
  - destruct (realTime_cursor_bound e t c He Hon) as [[H0 H1] _]. fold r in H0, H1.
    assert (Ht : text r = applyRules (rules e) t) by by apply realTime_text.
    pose proof (applyRules_clean e t He) as Hclean. rewrite <- Ht in Hclean.
    assert (Etext : text (transliterateRealTime e (text r) (newCursorPosition r))
                    = text r).
    { rewrite realTime_text by done. by apply applyRules_id. }
    assert (Ecur : newCursorPosition
                     (transliterateRealTime e (text r) (newCursorPosition r))
                   = newCursorPosition r).
    { rewrite realTime_cursor by done.
      rewrite applyRules_id by by apply Forall_take.
      unfold jsLength in *. rewrite length_take. lia. }
    destruct (transliterateRealTime e (text r) (newCursorPosition r)), r.
    cbn [text newCursorPosition] in *. by subst.
  - unfold r. by rewrite !disabled_flag_identity.
Qed.

Lemma realTime_fixed_point_witness :
  let r := transliterateRealTime Part008.constructor (js "ana sh") 5 in
  transliterateRealTime Part008.constructor (text r) (newCursorPosition r) = r.
Proof.
  exact (realTime_fixed_point Part008.constructor (js "ana sh") 5
           shipped_Part008).
Defined.

(** X9. No sequence of [setEnabled] and [setKeyboardLayout] calls changes
    what [transliterate] and [getPreview] return, and of such a sequence
    [transliterateRealTime] sees only the flag it leaves: the keyboard layout
    has no effect on any result. *)
Theorem setters_frame e0 e :
  reachable e0 e ->
  (forall s, transliterate e s = transliterate e0 s) /\
  (forall s, getPreview e s = transliterate e0 s) /\
  (forall t c, transliterateRealTime e t c
               = transliterateRealTime (setEnabled e0 (isEnabled e)) t c).
Proof.
  intros [Hr Hs]%reachable_frame.
  assert (Ht : forall s, transliterate e s = transliterate e0 s).
  { intros s. unfold transliterate. by rewrite Hr. }
  split; [done|]. split; [done|].
  intros t c. unfold transliterateRealTime. cbn [isEnabled setEnabled separators].
  rewrite Hs. destruct (isEnabled e); cbn [negb]; [|done].
  assert (Ht' : forall s, transliterate e s
                          = transliterate (setEnabled e0 true) s).
  { intros s. unfold transliterate. by rewrite Hr. }
  by rewrite !Ht'.
Qed.

Lemma setters_frame_witness :
  transliterate (setKeyboardLayout (setEnabled Part008.constructor false)
                   (js "QWERTY")) (js "salam")
  = transliterate Part008.constructor (js "salam").
Proof.
  apply (setters_frame Part008.constructor
           (setKeyboardLayout (setEnabled Part008.constructor false) (js "QWERTY"))).
  apply reach_setKeyboardLayout, reach_setEnabled, reach_new.
Defined.

(** ** String operations *)

Lemma startsWith_spec s p : startsWith s p = true <-> exists r, s = p ++ r.
Proof.
  revert s. induction p as [|c p IH]; intros s; simpl.
  - split; [intros _; by exists s | done].
  - destruct s as [|d s]; [split; [done | by intros [r Hr]]|].
    rewrite andb_true_iff, N.eqb_eq, IH. split.
    + intros [-> [r ->]]. by exists r.
    + intros [r [= -> ->]]. split; [done | by exists r].
Qed.

Lemma sameString_spec a b : sameString a b = true <-> a = b.
Proof.
  unfold sameString. rewrite andb_true_iff, Nat.eqb_eq, startsWith_spec. split.
  - intros [Hlen [r ->]]. rewrite length_app in Hlen.
    assert (r = []) as -> by (destruct r; [done | simpl in Hlen; lia]).
    by rewrite app_nil_r.
  - intros ->. split; [done|]. exists []. by rewrite app_nil_r.
Qed.

Lemma stringIncludes_spec s p :
  stringIncludes s p = true <-> exists a b, s = a ++ p ++ b.
Proof.
  induction s as [|d s IH]; cbn [stringIncludes].
  - rewrite orb_false_r, startsWith_spec. split.
    + intros [r Hr]. by exists [], r.
    + intros (a & b & H). symmetry in H.
      apply app_eq_nil in H as [-> H]. by exists b.
  - rewrite orb_true_iff, startsWith_spec, IH. split.
    + intros [[r Hr] | (a & b & ->)]; [by exists [], r|].
      by exists (d :: a), b.
    + intros ([|d' a] & b & H); [left; by exists b|].
      right. injection H as -> ->. by exists a, b.
Qed.

Lemma endsWith_spec s p : endsWith s p = true -> exists a, s = a ++ p.
Proof.
  unfold endsWith. rewrite andb_true_iff, Nat.leb_le, startsWith_spec.
  intros [Hlen [r Hr]].
  assert (r = []) as ->.
  { apply (f_equal length) in Hr. rewrite length_drop, length_app in Hr.
    destruct r; [done | simpl in Hr; lia]. }
  rewrite app_nil_r in Hr. set (n := length s - length p) in *.
  exists (take n s). rewrite <- (take_drop n s) at 1. by rewrite Hr.
Qed.

(** ** The content script and the engine *)

Lemma round_unchanged e inputElement :
  sameString (Content.value inputElement)
    (text (transliterateRealTime e (Content.value inputElement)
             (Content.selectionStart inputElement))) = true ->
  Content.round e inputElement = inputElement.
Proof.
  intros E. unfold Content.round, Content.updateStandardInputElement.
  by rewrite E.
Qed.

Lemma round_changed e inputElement :
  let r := transliterateRealTime e (Content.value inputElement)
             (Content.selectionStart inputElement) in
  sameString (Content.value inputElement) (text r) = false ->
  Content.round e inputElement
  = {| Content.value := text r;
       Content.selectionStart := Z.min (newCursorPosition r) (jsLength (text r));
       Content.selectionEnd := Z.min (newCursorPosition r) (jsLength (text r)) |}.
Proof.
  intros r E. unfold Content.round, Content.updateStandardInputElement.
  fold r. by rewrite E.
Qed.

(** X10. One round of the content script on a text field: with the engine
    enabled the field holds the transliteration of what it held, with the
    engine disabled it is untouched; where the text changed, the cursor is
    the engine's new cursor position at both ends of the selection; and a
    second round on the field changes nothing. *)
Theorem field_round e inputElement :
  shipped e ->
  let r := transliterateRealTime e (Content.value inputElement)
             (Content.selectionStart inputElement) in
  let after := Content.round e inputElement in
  Content.value after
  = (if isEnabled e then transliterate e (Content.value inputElement)
     else Content.value inputElement) /\
  (Content.value after <> Content.value inputElement ->
   Content.selectionStart after = newCursorPosition r /\
   Content.selectionEnd after = newCursorPosition r) /\
  Content.round e after = after.
Proof.
  intros He r after.
  assert (Htext : text r = if isEnabled e
                           then transliterate e (Content.value inputElement)
                           else Content.value inputElement).
  { unfold r. destruct (isEnabled e) eqn:Hon.
    - by rewrite transliterate_applyRules, realTime_text.
    - by rewrite disabled_flag_identity. }
  assert (Hfix : text (transliterateRealTime e (text r)
                         (Z.min (newCursorPosition r) (jsLength (text r))))
                 = text r).
  { destruct (isEnabled e) eqn:Hon.
    - rewrite realTime_text by done.
      assert (Ht : text r = applyRules (rules e) (Content.value inputElement))
        by by apply realTime_text.
      rewrite Ht. apply applyRules_id. by apply applyRules_clean.
    - by rewrite disabled_flag_identity. }
  destruct (sameString (Content.value inputElement) (text r)) eqn:E.
  - assert (Hafter : after = inputElement) by by apply round_unchanged.
    apply sameString_spec in E. rewrite Hafter.
    split; [by rewrite <- Htext|]. split; [done|].
    apply round_unchanged. fold r. by apply sameString_spec.
  - assert (Hafter : after = _) by exact (round_changed e inputElement E).
    rewrite Hafter. cbn [Content.value Content.selectionStart Content.selectionEnd].
    split; [done|]. split.
    + intros _. destruct (isEnabled e) eqn:Hon.
      * destruct (realTime_cursor_bound e (Content.value inputElement)
                    (Content.selectionStart inputElement) He Hon) as [_ Hmin].
        split; exact Hmin.
      * exfalso. rewrite Htext in E.
        by rewrite (proj2 (sameString_spec _ _) eq_refl) in E.
    + apply round_unchanged.
      cbn [Content.value Content.selectionStart Content.selectionEnd].
      apply sameString_spec. symmetry. exact Hfix.
Qed.

Lemma field_round_witness :
  let el := {| Content.value := js "ana sh"; Content.selectionStart := 6;
               Content.selectionEnd := 6 |} in
  Content.round Part008.constructor (Content.round Part008.constructor el)
  = Content.round Part008.constructor el.
Proof.
  intros el.
  exact (proj2 (proj2 (field_round Part008.constructor el shipped_Part008))).
Defined.

(** ** The background service worker *)

Lemma toggle_flag w writeOk :
  isEnabled (Worker.transliterator (snd (Worker.toggle w writeOk)))
  = negb (isEnabled (Worker.transliterator w)) /\
  Worker.badge (snd (Worker.toggle w writeOk))
  = Some (Worker.updateBadge (negb (isEnabled (Worker.transliterator w)))) /\
  fst (Worker.toggle w writeOk) = negb (isEnabled (Worker.transliterator w)).
Proof. done. Qed.

(** What [onMessage] does by the type of the message. *)
Lemma onMessage_toggle w payload tabs writeOk :
  Worker.onMessage w (Worker.Msg (Some "TOGGLE_TRANSLITERATOR"%string) payload)
    tabs writeOk
  = Some {| Worker.after := snd (Worker.toggle w writeOk);
            Worker.response := Some (Worker.TOGGLE_RESPONSE
                                       (fst (Worker.toggle w writeOk)));
            Worker.sent := Worker.notifyTabs tabs (fst (Worker.toggle w writeOk)) |}.
Proof. reflexivity. Qed.

Lemma onMessage_other w message tabs writeOk h :
  Worker.isToggle (Worker.Received message tabs writeOk) = false ->
  Worker.onMessage w message tabs writeOk = Some h ->
  Worker.after h = w /\ Worker.sent h = [].
Proof.
  unfold Worker.onMessage, Worker.isToggle.
  destruct message as [|[type|] payload]; [done | | by intros _ [= <-]].
  intros Hty.
  destruct (String.eqb type "TRANSLITERATE_REAL_TIME").
  { destruct payload as [payload|]; [|done].
    destruct (Worker.callTransliterateRealTime _ payload); [by intros [= <-] | done]. }
  destruct (String.eqb type "GET_TRANSLITERATOR_STATE"); [by intros [= <-]|].
  rewrite Hty. by intros [= <-].
Qed.

Lemma step_not_toggle w ev :
  Worker.isToggle ev = false -> Worker.isResumed ev = false ->
  Worker.step w ev = w.
Proof.
  destruct ev as [result tabs | message tabs writeOk | tab writeOk | status tab];
    [done | | done | done].
  intros Hty _. cbn [Worker.step].
  destruct (Worker.onMessage w message tabs writeOk) as [h|] eqn:E; [|done].
  by apply onMessage_other in E as [-> _].
Qed.

Lemma step_toggle w ev :
  Worker.isToggle ev = true ->
  Worker.step w ev = snd (Worker.toggle w (Worker.storageOk ev)).
Proof.
  destruct ev as [result tabs | [|[type|] payload] tabs writeOk
                 | tab writeOk | status tab]; try done.
  cbn [Worker.isToggle Worker.step Worker.storageOk].
  intros ->%String.eqb_eq. by rewrite onMessage_toggle.
Qed.

Lemma step_resumed w result tabs :
  isEnabled (Worker.transliterator (Worker.step w (Worker.Resumed result tabs)))
  = match result with
    | Some result => Worker.persisted (Worker.start None result)
    | None => true
    end /\
  Worker.badge (Worker.step w (Worker.Resumed result tabs))
  = Some (Worker.updateBadge
            (isEnabled (Worker.transliterator
                          (Worker.step w (Worker.Resumed result tabs))))) /\
  Worker.storage (Worker.step w (Worker.Resumed result tabs)) = Worker.storage w.
Proof. by destruct result. Qed.

Lemma step_reachable w ev :
  reachable Background.constructor (Worker.transliterator w) ->
  reachable Background.constructor (Worker.transliterator (Worker.step w ev)).
Proof.
  intros H. destruct (Worker.isToggle ev) eqn:E.
  - rewrite step_toggle by done. by apply reach_setEnabled.
  - destruct ev as [result tabs | message tabs writeOk | tab writeOk | status tab].
    + cbn [Worker.step]. unfold Worker.initializeTransliteratorState.
      destruct result; by apply reach_setEnabled.
    + by rewrite step_not_toggle.
    + done.
    + done.
Qed.

Lemma run_cons w ev evs :
  Worker.run w (ev :: evs) = Worker.run (Worker.step w ev) evs.
Proof. reflexivity. Qed.

Lemma run_app w evs evs' :
  Worker.run w (evs ++ evs') = Worker.run (Worker.run w evs) evs'.
Proof. apply fold_left_app. Qed.

Lemma run_reachable w evs :
  reachable Background.constructor (Worker.transliterator w) ->
  reachable Background.constructor (Worker.transliterator (Worker.run w evs)).
Proof.
  revert w. induction evs as [|ev evs IH]; intros w H; [done|].
  by apply IH, step_reachable.
Qed.

(** The resumption of the start-up and a toggle make the badge show the
    flag; every event keeps it so. *)
Lemma step_invariant w ev :
  reachable Background.constructor (Worker.transliterator w) ->
  (Worker.invariant w \/ Worker.isResumed ev = true
   \/ Worker.isToggle ev = true) ->
  Worker.invariant (Worker.step w ev).
Proof.
  intros Hr H. split; [|by apply step_reachable].
  destruct (Worker.isToggle ev) eqn:E.
  - by rewrite step_toggle.
  - destruct ev as [result tabs | message tabs writeOk | tab writeOk | status tab].
    + apply step_resumed.
    + rewrite step_not_toggle by done.
      destruct H as [[H _] | [H | H]]; done.
    + done.
    + cbn [Worker.step]. destruct H as [[H _] | [H | H]]; done.
Qed.

Lemma run_invariant w evs :
  Worker.invariant w -> Worker.invariant (Worker.run w evs).
Proof.
  revert w. induction evs as [|ev evs IH]; intros w H; [done|].
  apply IH, step_invariant; [apply H | by left].
Qed.

(** X11. In the life of a worker, from the moment
    [initializeTransliteratorState] has resumed after its read of the
    storage, whatever ran before it and whatever the read gave, and after
    any messages, icon clicks and tab updates that follow, with storage
    calls failing or not, the badge of the icon shows the flag of the
    engine (ON and green when enabled, OFF and red when disabled), and the
    engine has the rule table and the separators it was constructed
    with. *)
Theorem worker_badge_tracks_flag keptBadge keptStorage before result tabs evs :
  let w := Worker.run (Worker.start keptBadge keptStorage)
             (before ++ Worker.Resumed result tabs :: evs) in
  Worker.badge w
  = Some (Worker.updateBadge (isEnabled (Worker.transliterator w))) /\
  rules (Worker.transliterator w) = Background.theRules /\
  separators (Worker.transliterator w) = theSeparators.
Proof.
  intros w.
  assert (H : Worker.invariant w).
  { unfold w. rewrite run_app, run_cons.
    apply run_invariant, step_invariant; [|right; by left].
    apply run_reachable, reach_new. }
  destruct H as [Hb Hr]. split; [done|]. by apply reachable_frame in Hr.
Qed.

(** Before the start-up has resumed the badge is the one the browser kept
    and need not show the flag: a worker restarted after the flag was turned
    off has a badge OFF and an engine that is enabled, and answers so. *)
Lemma worker_badge_before_resumption :
  let w := Worker.start (Some (Worker.updateBadge false))
             {[ Worker.STORAGE_KEY_ENABLED := false ]} in
  Worker.badge w <> Some (Worker.updateBadge (isEnabled (Worker.transliterator w))) /\
  Worker.onMessage w (Worker.Msg (Some "GET_TRANSLITERATOR_STATE"%string) None) [] true
  = Some {| Worker.after := w;
            Worker.response := Some (Worker.TRANSLITERATOR_STATE_RESPONSE true);
            Worker.sent := [] |}.
Proof. split; [discriminate | reflexivity]. Qed.

Lemma step_persisted w ev :
  Worker.storageOk ev = true -> Worker.isResumed ev = false ->
  Worker.persisted w = isEnabled (Worker.transliterator w) ->
  Worker.persisted (Worker.step w ev)
  = isEnabled (Worker.transliterator (Worker.step w ev)).
Proof.
  intros Hok Hev H. destruct (Worker.isToggle ev) eqn:E.
  - rewrite step_toggle, Hok by done. unfold Worker.persisted, Worker.toggle.
    cbn [snd Worker.storage Worker.transliterator isEnabled setEnabled].
    by rewrite lookup_insert_eq.
  - by rewrite step_not_toggle.
Qed.

Lemma run_persisted w evs :
  forallb (fun ev => Worker.storageOk ev && negb (Worker.isResumed ev)) evs = true ->
  Worker.persisted w = isEnabled (Worker.transliterator w) ->
  Worker.persisted (Worker.run w evs)
  = isEnabled (Worker.transliterator (Worker.run w evs)).
Proof.
  revert w. induction evs as [|ev evs IH]; intros w Hok H; [done|].
  cbn [forallb] in Hok. apply andb_true_iff in Hok as [Hev Hevs].
  apply andb_true_iff in Hev as [Hev1 Hev2]. apply negb_true_iff in Hev2.
  apply IH; [done|]. by apply step_persisted.
Qed.

(** X12. The flag survives a restart of the worker when the start-up comes
    first and the storage works: if [initializeTransliteratorState] resumes,
    with the storage as the worker found it, before any listener runs, and
    every write of the listeners that follow succeeds, then a worker started
    later on the storage they left, once its start-up has resumed in the
    same way, has the flag the engine had. *)
Theorem worker_flag_survives_restart keptBadge keptStorage tabs evs :
  forallb (fun ev => Worker.storageOk ev && negb (Worker.isResumed ev)) evs = true ->
  let w := Worker.run (Worker.start keptBadge keptStorage)
             (Worker.Resumed (Some keptStorage) tabs :: evs) in
  forall laterBadge laterTabs,
    isEnabled (Worker.transliterator
                 (Worker.step (Worker.start laterBadge (Worker.storage w))
                              (Worker.Resumed (Some (Worker.storage w)) laterTabs)))
    = isEnabled (Worker.transliterator w).
Proof.
  intros Hok w laterBadge laterTabs.
  assert (H : Worker.persisted w = isEnabled (Worker.transliterator w)).
  { unfold w. rewrite run_cons. apply run_persisted; [done|].
    by rewrite (proj1 (step_resumed _ _ _)). }
  rewrite <- H. by rewrite (proj1 (step_resumed _ _ _)).
Qed.

Lemma worker_flag_survives_restart_witness :
  let toggle := Worker.Received
                  (Worker.Msg (Some "TOGGLE_TRANSLITERATOR"%string) None) [] true in
  let w := Worker.run (Worker.start None ∅) [Worker.Resumed (Some ∅) []; toggle] in
  isEnabled (Worker.transliterator
               (Worker.step (Worker.start None (Worker.storage w))
                            (Worker.Resumed (Some (Worker.storage w)) [])))
  = isEnabled (Worker.transliterator w).
Proof.
  intros toggle w.
  exact (worker_flag_survives_restart None ∅ [] [toggle] eq_refl None []).
Defined.

(** X13. A message other than [TOGGLE_TRANSLITERATOR], whatever it is and
    whether the listener returns or throws on it, changes nothing in the
    worker, and when the listener returns nothing was sent to any tab.  The
    listener throws on a message that is [null] or [undefined], on a
    [TRANSLITERATE_REAL_TIME] message without payload and, with the engine
    enabled, on one whose payload has no [currentText]; a disabled engine
    passes such a payload on as it came. *)
Theorem worker_reads_keep_state w tabs writeOk :
  (forall message,
     Worker.isToggle (Worker.Received message tabs writeOk) = false ->
     Worker.step w (Worker.Received message tabs writeOk) = w /\
     forall h, Worker.onMessage w message tabs writeOk = Some h ->
               Worker.after h = w /\ Worker.sent h = []) /\
  Worker.onMessage w Worker.NoMessage tabs writeOk = None /\
  Worker.onMessage w (Worker.Msg (Some "TRANSLITERATE_REAL_TIME"%string) None)
    tabs writeOk = None /\
  (forall cursorPosition,
     Worker.onMessage w
       (Worker.Msg (Some "TRANSLITERATE_REAL_TIME"%string)
          (Some {| Worker.currentText := None;
                   Worker.cursorPosition := cursorPosition |})) tabs writeOk
     = if isEnabled (Worker.transliterator w) then None
       else Some {| Worker.after := w;
                    Worker.response :=
                      Some (Worker.TRANSLITERATE_RESPONSE
                              {| Worker.payloadText := None;
                                 Worker.payloadCursor := cursorPosition |});
                    Worker.sent := [] |}).
Proof.
  split; [|split; [done|split; [done|]]].
  - intros message Hty. split; [by apply step_not_toggle|].
    intros h. by apply onMessage_other.
  - intros c. cbn. unfold Worker.callTransliterateRealTime. cbn.
    by destruct (isEnabled (Worker.transliterator w)).
Qed.

(** X14. Two toggles in a row, by message or by click on the icon, bring
    the engine back to where it was; the badge then shows the flag the
    engine had at first, so it is as it was if it showed that flag then; and
    when the second write to the storage succeeds the stored flag is the
    engine's flag. *)
Theorem worker_toggle_twice w ev1 ev2 :
  Worker.isToggle ev1 = true -> Worker.isToggle ev2 = true ->
  let w2 := Worker.step (Worker.step w ev1) ev2 in
  Worker.transliterator w2 = Worker.transliterator w /\
  Worker.badge w2
  = Some (Worker.updateBadge (isEnabled (Worker.transliterator w))) /\
  (Worker.badge w
   = Some (Worker.updateBadge (isEnabled (Worker.transliterator w))) ->
   Worker.badge w2 = Worker.badge w) /\
  (Worker.storageOk ev2 = true ->
   Worker.persisted w2 = isEnabled (Worker.transliterator w)).
Proof.
  intros H1 H2 w2. unfold w2. rewrite step_toggle, (step_toggle w) by done.
  unfold Worker.toggle, Worker.persisted, isTransliteratorEnabled.
  cbn [snd Worker.transliterator Worker.badge Worker.storage isEnabled setEnabled].
  rewrite negb_involutive. split; [by destruct (Worker.transliterator w)|].
  split; [done|]. split; [by intros ->|]. intros ->. by rewrite lookup_insert_eq.
Qed.

Lemma worker_toggle_twice_witness :
  let toggle writeOk :=
    Worker.Received (Worker.Msg (Some "TOGGLE_TRANSLITERATOR"%string) None)
      [] writeOk in
  let w := Worker.step (Worker.start None ∅) (Worker.Resumed (Some ∅) []) in
  let w2 := Worker.step (Worker.step w (toggle true)) (toggle false) in
  Worker.transliterator w2 = Worker.transliterator w /\
  Worker.badge w2 = Worker.badge w.
Proof.
  intros toggle w w2.
  destruct (worker_toggle_twice w (toggle true) (toggle false) eq_refl eq_refl)
    as (Ht & _ & Hb & _).
  split; [exact Ht | exact (Hb eq_refl)].
Defined.

(** X15. At any time in the life of a worker, whatever events it has
    handled, a [TRANSLITERATE_REAL_TIME] message whose payload holds a
    string and a safe-integer cursor position is answered with a
    [TRANSLITERATE_RESPONSE], and the worker stays as it is: the call of the
    engine returns (its loops on numbers end), the text of the payload is
    the transliteration of the text received when the flag is on and the
    text received when it is off, and with the flag on the cursor of the
    payload lies within that text. *)
Theorem worker_transliterates keptBadge keptStorage evs
    currentText cursorPosition tabs writeOk :
  Binary64.isSafeInteger cursorPosition ->
  (jsLength currentText <= Binary64.MAX_SAFE_INTEGER)%Z ->
  let w := Worker.run (Worker.start keptBadge keptStorage) evs in
  let message :=
    Worker.Msg (Some "TRANSLITERATE_REAL_TIME"%string)
      (Some {| Worker.currentText := Some currentText;
               Worker.cursorPosition := Some cursorPosition |}) in
  exists payload,
    (exists fuel,
       realTimeWithin fuel (Worker.transliterator w) currentText cursorPosition
       = Some payload) /\
    Worker.onMessage w message tabs writeOk
    = Some {| Worker.after := w;
              Worker.response :=
                Some (Worker.TRANSLITERATE_RESPONSE
                        {| Worker.payloadText := Some (text payload);
                           Worker.payloadCursor :=
                             Some (newCursorPosition payload) |});
              Worker.sent := [] |} /\
    text payload
    = (if isEnabled (Worker.transliterator w)
       then transliterate Background.constructor currentText
       else currentText) /\
    (isEnabled (Worker.transliterator w) = true ->
     (0 <= newCursorPosition payload <= jsLength (text payload))%Z).
Proof.
  intros Hc Hl w message.
  exists (transliterateRealTime (Worker.transliterator w) currentText cursorPosition).
  split; [eexists; by apply realTimeWithin_exact|].
  assert (Hr : reachable Background.constructor (Worker.transliterator w))
    by apply run_reachable, reach_new.
  assert (He : shipped (Worker.transliterator w)) by by left.
  split; [|split].
  - cbn. unfold Worker.callTransliterateRealTime. cbn.
    destruct (isEnabled (Worker.transliterator w)) eqn:Hon; cbn; [done|].
    by rewrite disabled_flag_identity.
  - destruct (isEnabled (Worker.transliterator w)) eqn:Hon.
    + rewrite realTime_text, transliterate_applyRules by done.
      by apply reachable_frame in Hr as [-> _].
    + by rewrite disabled_flag_identity.
  - intros Hon. by apply realTime_cursor_bound.
Qed.

Lemma worker_transliterates_witness :
  let w := Worker.run (Worker.start None ∅) [] in
  exists payload,
    (exists fuel,
       realTimeWithin fuel (Worker.transliterator w) (js "ana sh") 6
       = Some payload) /\
    text payload = transliterate Background.constructor (js "ana sh").
Proof.
  intros w.
  assert (Hc : Binary64.isSafeInteger 6)
    by (unfold Binary64.isSafeInteger, Binary64.MAX_SAFE_INTEGER; lia).
  assert (Hl : (jsLength (js "ana sh") <= Binary64.MAX_SAFE_INTEGER)%Z)
    by (vm_compute; discriminate).
  destruct (worker_transliterates None ∅ [] (js "ana sh") 6 [] true Hc Hl)
    as (payload & Hf & _ & Ht & _).
  exists payload. split; [exact Hf | exact Ht].
Defined.

(** X21. A toggle handled while the read of the start-up is pending is
    undone in the engine and kept in the storage: the new engine is enabled,
    the toggle disables it and stores [false], and when
    [initializeTransliteratorState] then resumes with the storage as it was
    read at the start, the flag and the badge are set from that.  With
    nothing or [true] stored before, the engine ends enabled and the badge
    ON while the storage holds [false]. *)
Theorem worker_stale_read keptBadge keptStorage ev tabs :
  Worker.isToggle ev = true -> Worker.storageOk ev = true ->
  let w := Worker.run (Worker.start keptBadge keptStorage)
             [ev; Worker.Resumed (Some keptStorage) tabs] in
  isEnabled (Worker.transliterator w)
  = Worker.persisted (Worker.start keptBadge keptStorage) /\
  Worker.badge w
  = Some (Worker.updateBadge (isEnabled (Worker.transliterator w))) /\
  Worker.storage w !! Worker.STORAGE_KEY_ENABLED = Some false.
Proof.
  intros Hty Hok w. unfold w. rewrite !run_cons.
  change (Worker.run ?x []) with x.
  destruct (step_resumed (Worker.step (Worker.start keptBadge keptStorage) ev)
              (Some keptStorage) tabs) as (-> & -> & ->).
  split; [done|]. split; [done|].
  rewrite step_toggle, Hok by done. cbn. by rewrite lookup_insert_eq.
Qed.

Lemma worker_stale_read_witness :
  let toggle := Worker.Received
                  (Worker.Msg (Some "TOGGLE_TRANSLITERATOR"%string) None) [] true in
  let w := Worker.run (Worker.start None ∅) [toggle; Worker.Resumed (Some ∅) []] in
  isEnabled (Worker.transliterator w) = true /\
  Worker.storage w !! Worker.STORAGE_KEY_ENABLED = Some false.
Proof.
  intros toggle w.
  destruct (worker_stale_read None ∅ toggle [] eq_refl eq_refl) as (H1 & _ & H3).
  split; [exact H1 | exact H3].
Defined.

(** ** Recognising Google pages *)

Lemma googleDomains_substring domain :
  In domain Google.googleDomains ->
  stringIncludes domain (js "google.") || stringIncludes domain (js "youtube.")
  = true.
Proof.
  revert domain. apply forallb_forall. vm_compute. reflexivity.
Qed.

Lemma stringIncludes_app a s p :
  stringIncludes s p = true -> stringIncludes (a ++ s) p = true.
Proof.
  rewrite !stringIncludes_spec. intros (x & y & ->).
  exists (a ++ x), y. by rewrite <- app_assoc.
Qed.

(** X16. [isGooglePage] is decided by two substrings alone: for a URL the
    parser accepts it returns whether the host name contains ["google."] or
    ["youtube."]; the sixteen listed domains add nothing, and a host such as
    [google.example.org] counts as a Google page. *)
Theorem isGooglePage_substring hostnameOf url hostname :
  url <> [] -> hostnameOf url = Some hostname ->
  Google.isGooglePage hostnameOf (Some url)
  = Some (stringIncludes hostname (js "google.")
          || stringIncludes hostname (js "youtube.")).
Proof.
  intros Hurl Hhost. unfold Google.isGooglePage.
  destruct url as [|c url]; [done|]. rewrite Hhost. f_equal.
  destruct (stringIncludes hostname (js "google.")
            || stringIncludes hostname (js "youtube.")) eqn:E.
  - apply existsb_exists. exists (js "google.com"). split; [by left|].
    rewrite <- orb_assoc, E. apply orb_true_r.
  - apply not_true_is_false. intros (domain & Hin & H)%existsb_exists.
    rewrite <- orb_assoc, E, orb_false_r in H.
    pose proof (googleDomains_substring domain Hin) as Hd.
    assert (Hsub : stringIncludes hostname (js "google.")
                   || stringIncludes hostname (js "youtube.") = true);
      [|by rewrite E in Hsub].
    apply orb_true_iff in H as [H|H].
    + apply sameString_spec in H. by subst.
    + apply endsWith_spec in H as [a ->].
      apply orb_true_iff in Hd. apply orb_true_iff.
      destruct Hd as [Hd|Hd]; [left | right];
        by apply stringIncludes_app, (stringIncludes_app (js ".")).
Qed.

Lemma isGooglePage_substring_witness :
  Google.isGooglePage (fun _ => Some (js "google.example.org"))
    (Some (js "https://google.example.org/"))
  = Some (stringIncludes (js "google.example.org") (js "google.")
          || stringIncludes (js "google.example.org") (js "youtube.")).
Proof.
  apply (isGooglePage_substring (fun _ => Some (js "google.example.org"))
           (js "https://google.example.org/") (js "google.example.org")).
  - discriminate.
  - reflexivity.
Defined.

(** ** Letters whose case does not matter *)

Lemma lowerCaseFree_out c :
  existsb (N.eqb c) caseFree = false -> lowerCaseFree c = c.
Proof. intros H. unfold lowerCaseFree. by rewrite H. Qed.

Lemma caseBlind_cons r R :
  caseBlind (r :: R) = true ->
  (forall c, isSingle (pattern r) (lowerCaseFree c) = isSingle (pattern r) c /\
             isFirst (pattern r) (lowerCaseFree c) = isFirst (pattern r) c /\
             isSecond (pattern r) (lowerCaseFree c) = isSecond (pattern r) c) /\
  map lowerCaseFree (arabic r) = arabic r /\
  caseBlind R = true.
Proof.
  unfold caseBlind. cbn [forallb]. rewrite !andb_true_iff.
  intros [[Hr Ha] HR]. split; [|split; [|done]].
  - intros c. unfold lowerCaseFree.
    destruct (existsb (N.eqb c) caseFree) eqn:E; [|done].
    apply existsb_In in E. rewrite forallb_forall in Hr.
    specialize (Hr c E). rewrite !andb_true_iff in Hr.
    destruct Hr as [[H1 H2] H3]. by rewrite !(Bool.eqb_true_iff) in *.
  - rewrite forallb_forall in Ha.
    induction (arabic r) as [|a l IH]; [done|]. cbn [map]. f_equal.
    + apply lowerCaseFree_out, negb_true_iff, Ha. by left.
    + apply IH. intros x Hx. apply Ha. by right.
Qed.

Lemma replace_lowerCaseFree re rep s :
  (forall c, isSingle re (lowerCaseFree c) = isSingle re c /\
             isFirst re (lowerCaseFree c) = isFirst re c /\
             isSecond re (lowerCaseFree c) = isSecond re c) ->
  map lowerCaseFree rep = rep ->
  replace (map lowerCaseFree s) re rep = map lowerCaseFree (replace s re rep).
Proof.
  intros H Hrep. destruct re as [p ic | p1 p2 ic]; cbn [replace].
  - induction s as [|x s IH]; [done|]. cbn [map replace1].
    destruct (H x) as [H1 _]. cbn [isSingle] in H1. rewrite H1, IH.
    destruct (charMatches ic p x); [by rewrite map_app, Hrep | done].
  - induction s as [| x | x y s IH1 IH2] using scan_ind; [done | done |].
    cbn [map]. rewrite !replace2_two.
    destruct (H x) as (_ & Hx & _). destruct (H y) as (_ & _ & Hy).
    cbn [isFirst isSecond] in Hx, Hy. rewrite Hx, Hy.
    destruct (charMatches ic p1 x && charMatches ic p2 y).
    + by rewrite IH1, map_app, Hrep.
    + cbn [map] in IH2. by rewrite IH2.
Qed.

Lemma applyRules_lowerCaseFree R s :
  caseBlind R = true ->
  applyRules R (map lowerCaseFree s) = map lowerCaseFree (applyRules R s).
Proof.
  revert s. induction R as [|r R IH]; intros s H; [done|].
  apply caseBlind_cons in H as (Hr & Ha & HR).
  rewrite !applyRules_cons, replace_lowerCaseFree by done. by apply IH.
Qed.

Lemma shipped_caseBlind e : shipped e -> caseBlind (rules e) = true.
Proof.
  intros [H|H]; apply reachable_frame in H as [-> _]; vm_compute; reflexivity.
Qed.

(** X17. The case of the letters A, B, E, F, H, I, J, K, L, M, N, P, R, U
    and W does not matter: lowering them in the input gives the same
    transliteration.  In particular an upper-case [H] gives the letter of
    [h]. *)
Theorem transliterate_case_free e s :
  shipped e ->
  transliterate e (map lowerCaseFree s) = transliterate e s.
Proof.
  intros He. rewrite !transliterate_applyRules.
  rewrite applyRules_lowerCaseFree by by apply shipped_caseBlind.
  pose proof (fun c => shipped_single e c He) as Hs.
  apply shipped_checks, tableChecks_spec in He as (Hi & _).
  pose proof (applyRules_clears_sub _ Hi (rules e) (reflexivity _) s) as Hclear.
  induction Hclear as [|x l Hx Hl IH]; [done|]. cbn [map]. f_equal; [|done].
  apply lowerCaseFree_out. rewrite Hs in Hx.
  destruct (existsb (N.eqb x) caseFree) eqn:E; [|done].
  apply existsb_In in E. exfalso.
  assert (Hsub : forallb (fun c => existsb (N.eqb c) singleChars) caseFree = true)
    by (vm_compute; reflexivity).
  rewrite forallb_forall in Hsub. specialize (Hsub x E). congruence.
Qed.

Lemma transliterate_case_free_witness :
  transliterate Background.constructor (map lowerCaseFree (js "ana rayeH"))
  = transliterate Background.constructor (js "ana rayeH").
Proof.
  exact (transliterate_case_free Background.constructor (js "ana rayeH")
           shipped_Background).
Defined.

(** ** The three segments *)

(** The segments are those of [transliterateRealTime]. *)
Lemma realTime_segments e t c :
  isEnabled e = true ->
  text (transliterateRealTime e t c)
  = transliterate e (committedPrefix e t c)
    ++ transliterate e (activeSegment e t c)
    ++ transliterate e (suffix e t c).
Proof. intros Hon. unfold transliterateRealTime. by rewrite Hon. Qed.

(** The left scan passes no separator: none lies between the index it
    returns and the index it started from. *)
Lemma scanLeft_nearest seps s n i j :
  (scanLeft seps s i n < j <= i)%Z -> (i - Z.of_nat n < j)%Z ->
  includes seps (stringAt s j) = false.
Proof.
  revert i. induction n as [|n IH]; intros i; [lia|]. cbn [scanLeft].
  destruct (includes seps (stringAt s i)) eqn:E; [lia|].
  intros H1 H2. destruct (Z.eq_dec j i) as [->|Hne]; [done|].
  apply (IH (i - 1)%Z); lia.
Qed.

Lemma scanRight_nearest seps s n i j :
  (i <= j < scanRight seps s i n)%Z -> (j < i + Z.of_nat n)%Z ->
  includes seps (stringAt s j) = false.
Proof.
  revert i. induction n as [|n IH]; intros i; [lia|]. cbn [scanRight].
  destruct (includes seps (stringAt s i)) eqn:E; [lia|].
  intros H1 H2. destruct (Z.eq_dec j i) as [->|Hne]; [done|].
  apply (IH (i + 1)%Z); lia.
Qed.

Lemma segments_parts e t c :
  (0 <= c <= jsLength t)%Z ->
  t = committedPrefix e t c ++ activeSegment e t c ++ suffix e t c /\
  Forall (fun x => includes (separators e) (Some x) = false) (activeSegment e t c) /\
  (jsLength (committedPrefix e t c) <= c
   <= jsLength (committedPrefix e t c) + jsLength (activeSegment e t c))%Z /\
  (forall x, last (committedPrefix e t c) = Some x ->
             includes (separators e) (Some x) = true) /\
  (forall x, head (suffix e t c) = Some x ->
             includes (separators e) (Some x) = true).
Proof.
  intros Hc.
  unfold committedPrefix, activeSegment, suffix.
  set (lb := leftBoundary e t c). set (rb := rightBoundary e t c).
  assert (Hlen : (0 <= jsLength t)%Z) by (unfold jsLength; lia).
  assert (Hl : lb = (-1)%Z \/
               exists x, (0 <= lb < c)%Z /\ (lb < jsLength t)%Z /\
                         t !! Z.to_nat lb = Some x /\
                         includes (separators e) (Some x) = true).
  { destruct (scanLeft_spec (separators e) t (Z.to_nat c) (c - 1)%Z)
      as [H | (x & H1 & H2 & H3)]; [by left|]. right. exists x.
    apply stringAt_Some in H2 as [H2 H4]. fold (leftBoundary e t c) in *.
    fold lb in H1, H2, H4. repeat split; try done; lia. }
  assert (Hr : rb = jsLength t \/
               exists y, (c <= rb < jsLength t)%Z /\
                         t !! Z.to_nat rb = Some y /\
                         includes (separators e) (Some y) = true).
  { destruct (scanRight_spec (separators e) t (Z.to_nat (jsLength t - c)) c)
      as [H | (y & H1 & H2 & H3)]; [by left|]. right. exists y.
    apply stringAt_Some in H2 as [H2 H4]. fold (rightBoundary e t c) in *.
    fold rb in H1, H2, H4. repeat split; try done; lia. }
  assert (Hord : (0 <= lb + 1 <= c)%Z /\ (c <= rb <= jsLength t)%Z).
  { destruct Hl as [-> | (x & ? & ? & _)]; destruct Hr as [-> | (y & ? & _)]; lia. }
  destruct Hord as [Hord1 Hord2].
  split; [apply segments_app; lia|].
  rewrite substring_prefix, substring_suffix, substring_middle by lia.
  split; [|split; [|split]].
  - apply Forall_lookup. intros k x Hk.
    apply lookup_take_Some in Hk as [Hk Hlt]. rewrite lookup_drop in Hk.
    set (j := (lb + 1 + Z.of_nat k)%Z).
    assert (Hj : stringAt t j = Some x).
    { unfold stringAt. destruct (j <? 0)%Z eqn:E; [lia|].
      rewrite <- Hk. f_equal. lia. }
    rewrite <- Hj. destruct (Z_lt_le_dec j c) as [Hjc|Hjc].
    + apply (scanLeft_nearest _ _ (Z.to_nat c) (c - 1)%Z).
      * fold (leftBoundary e t c). fold lb. lia.
      * lia.
    + apply (scanRight_nearest _ _ (Z.to_nat (jsLength t - c)) c).
      * fold (rightBoundary e t c). fold rb. lia.
      * apply lookup_lt_Some in Hk. unfold jsLength. lia.
  - unfold jsLength in *. rewrite !length_take, length_drop. lia.
  - intros x Hx. destruct Hl as [Hl | (x' & Hl1 & Hl2 & Hl3 & Hl4)].
    + rewrite Hl in Hx. done.
    + replace (Z.to_nat (lb + 1)) with (S (Z.to_nat lb)) in Hx by lia.
      rewrite (last_take_S _ _ _ Hl3) in Hx. by injection Hx as <-.
  - intros y Hy. rewrite head_drop in Hy.
    destruct Hr as [Hr | (y' & Hr1 & Hr2 & Hr3)].
    + rewrite lookup_ge_None_2 in Hy; [done|]. rewrite Hr. unfold jsLength. lia.
    + rewrite Hr2 in Hy. by injection Hy as <-.
Qed.

(** X19. For a cursor within the text, the three segments of
    [transliterateRealTime] make up the text; the active segment holds the
    cursor and no separator; the committed prefix is empty or ends with a
    separator, and the suffix is empty or starts with one; and the text an
    enabled engine returns is the three segments transliterated apart. *)
Theorem segments_shape e t c :
  (0 <= c <= jsLength t)%Z ->
  t = committedPrefix e t c ++ activeSegment e t c ++ suffix e t c /\
  Forall (fun x => includes (separators e) (Some x) = false) (activeSegment e t c) /\
  (jsLength (committedPrefix e t c) <= c
   <= jsLength (committedPrefix e t c) + jsLength (activeSegment e t c))%Z /\
  (forall x, last (committedPrefix e t c) = Some x ->
             includes (separators e) (Some x) = true) /\
  (forall x, head (suffix e t c) = Some x ->
             includes (separators e) (Some x) = true) /\
  (isEnabled e = true ->
   text (transliterateRealTime e t c)
   = transliterate e (committedPrefix e t c)
     ++ transliterate e (activeSegment e t c)
     ++ transliterate e (suffix e t c)).
Proof.
  intros Hc. destruct (segments_parts e t c Hc) as (H1 & H2 & H3 & H4 & H5).
  repeat split; try done; try apply H3. apply realTime_segments.
Qed.

Lemma segments_shape_witness :
  js "ana sh, 3arab"
  = committedPrefix Part008.constructor (js "ana sh, 3arab") 5
    ++ activeSegment Part008.constructor (js "ana sh, 3arab") 5
    ++ suffix Part008.constructor (js "ana sh, 3arab") 5.
Proof.
  apply (segments_shape Part008.constructor (js "ana sh, 3arab") 5).
  vm_compute. split; discriminate.
Defined.

(** ** The place of a cursor in an editable element *)

(** Induction on a node, with the property of every child of an element. *)
Lemma Node_induction (P : Editable.Node -> Prop) :
  (forall textContent, P (Editable.TextNode textContent)) ->
  (forall childNodes, Forall P childNodes -> P (Editable.ElementNode childNodes)) ->
  P Editable.OtherNode ->
  forall node, P node.
Proof.
  intros Htext Helement Hother.
  refine (fix IH node :=
            match node with
            | Editable.TextNode textContent => Htext textContent
            | Editable.ElementNode childNodes =>
                Helement childNodes
                  ((fix all children : Forall P children :=
                      match children with
                      | [] => @List.Forall_nil _ P
                      | child :: rest =>
                          @List.Forall_cons _ P child rest (IH child) (all rest)
                      end) childNodes)
            | Editable.OtherNode => Hother
            end).
Qed.

Lemma locate_app position a b currentPosition passed :
  Editable.locate position (a ++ b) currentPosition passed
  = match Editable.locate position a currentPosition passed with
    | (Some result, st) => (Some result, st)
    | (None, (currentPosition', passed')) =>
        Editable.locate position b currentPosition' passed'
    end.
Proof.
  revert currentPosition passed. induction a as [|s a IH]; intros cur seen; [done|].
  cbn [app Editable.locate].
  destruct (cur + jsLength s >=? position)%Z; [done | apply IH].
Qed.

(** The walk over the tree is the walk over the texts of its text nodes. *)
Lemma walk_locate position node :
  forall currentPosition passed,
  Editable.walkTextNodes position node currentPosition passed
  = Editable.locate position (Editable.textNodes node) currentPosition passed.
Proof.
  induction node as [s | children IH | ] using Node_induction; intros cur seen.
  - cbn. by destruct (cur + jsLength s >=? position)%Z.
  - cbn [Editable.walkTextNodes Editable.textNodes].
    revert cur seen. induction IH as [|child rest Hchild _ IHrest]; intros cur seen;
      [done|].
    rewrite locate_app, <- Hchild.
    destruct (Editable.walkTextNodes position child cur seen) as [[r|] [cur' seen']];
      [done | apply IHrest].
  - done.
Qed.

Lemma locate_spec position texts currentPosition passed :
  match fst (Editable.locate position texts currentPosition passed) with
  | Some (k, offset) =>
      exists i s, k = passed + i /\ texts !! i = Some s /\
        (currentPosition + jsLength (concat (take i texts)) + offset = position)%Z /\
        (offset <= jsLength s)%Z /\
        ((0 < i)%nat -> (0 < offset)%Z) /\
        (currentPosition <= position -> 0 <= offset)%Z
  | None =>
      texts = [] \/ (currentPosition + jsLength (concat texts) < position)%Z
  end.
Proof.
  revert currentPosition passed.
  induction texts as [|s ts IH]; intros cur seen; [by left|].
  cbn [Editable.locate].
  destruct (cur + jsLength s >=? position)%Z eqn:E.
  - apply Z.geb_le in E. cbn [fst]. exists 0, s.
    split; [lia|]. split; [done|].
    change (take 0 (s :: ts)) with (@nil jsString).
    unfold jsLength in *. cbn [concat length]. lia.
  - rewrite Z.geb_leb in E. apply Z.leb_gt in E.
    specialize (IH (cur + jsLength s)%Z (S seen)).
    destruct (fst (Editable.locate position ts (cur + jsLength s) (S seen)))
      as [[k offset]|].
    + destruct IH as (i & s' & -> & Hi & Hsum & Hle & Hpos & _).
      exists (S i), s'. split; [lia|]. split; [done|].
      change (take (S i) (s :: ts)) with (s :: take i ts).
      unfold jsLength in *. cbn [concat]. rewrite length_app.
      assert (Hoff : (0 < offset)%Z).
      { destruct i as [|i]; [|apply Hpos; lia].
        change (take 0 ts) with (@nil jsString) in Hsum.
        cbn [concat length] in Hsum. lia. }
      lia.
    + right. cbn [concat]. unfold jsLength in *. rewrite length_app.
      destruct IH as [-> | IH]; [cbn; lia | lia].
Qed.

(** X20. Where [getTextNodeAndOffsetFromPosition] finds a place, the text
    of the text nodes before the node it returns, together with the offset,
    has the length [position]; the offset does not exceed the text of the
    node, is not negative for a position that is not negative, and is
    positive in every node but the first, so that a position on the border
    of two text nodes is put at the end of the former.  It returns [null]
    only when there is no text node or the position lies beyond all text. *)
Theorem cursor_place element position :
  match Editable.getTextNodeAndOffsetFromPosition element position with
  | Some (k, offset) =>
      exists s, Editable.textNodes element !! k = Some s /\
        (jsLength (concat (take k (Editable.textNodes element))) + offset
         = position)%Z /\
        (offset <= jsLength s)%Z /\
        ((0 < k)%nat -> (0 < offset)%Z) /\
        (0 <= position -> 0 <= offset)%Z
  | None =>
      Editable.textNodes element = [] \/
      (jsLength (concat (Editable.textNodes element)) < position)%Z
  end.
Proof.
  unfold Editable.getTextNodeAndOffsetFromPosition. rewrite walk_locate.
  pose proof (locate_spec position (Editable.textNodes element) 0 0) as H.
  destruct (fst (Editable.locate position (Editable.textNodes element) 0 0))
    as [[k offset]|].
  - destruct H as (i & s & -> & Hi & Hsum & Hle & Hpos & Hnn).
    exists s. cbn [Nat.add]. repeat split; try done; lia.
  - destruct H as [H|H]; [by left | right; lia].
Qed.
